(** * Bardrix ray tracer: colour arithmetic, material, Phong lighting and
      the paint loop, embedded from the C++ sources.

    - [color.cpp]  : [bardrix::color], a union of one 32-bit word and four
                     [unsigned char] channels, with saturating operators;
    - [objects.h]  : [bardrix::material] and the abstract [bardrix::shape];
    - the program  : [calculate_light_intensity] and the [on_paint] lambda.

    A C++ [double] is a binary64 value, the kernel's [float]; its operators
    are the primitive ones, specified by [FloatAxioms] against [SpecFloat]. *)

From Stdlib Require Import ZArith Lia List Bool Floats QArith Qround Arith.
From Stdlib Require String.
Import ListNotations.

Set Warnings "-inexact-float".

Local Open Scope Z_scope.

(** ** Doubles and the conversions the program uses *)

Module Double.

Definition double := float.

(** Integer to double conversion (the [unsigned char] and [int] operands of
    a mixed expression), for the non-negative integers the program
    converts; exact below 2^53. *)
Definition of_int (z : Z) : double := PrimFloat.of_uint63 (Uint63.of_Z z).

(** The integer part of a binary64 value, towards zero; nothing for an
    infinity or a NaN. *)
Definition SFtrunc (x : spec_float) : option Z :=
  match x with
  | S754_zero _ => Some 0
  | S754_finite s m e => Some (cond_Zopp s (Z.shiftl (Zpos m) e))
  | S754_infinity _ | S754_nan => None
  end.

Definition trunc (x : double) : option Z := SFtrunc (Prim2SF x).

(** The exact rational value of a finite binary64 value. *)
Definition SF2Q (x : spec_float) : option Q :=
  match x with
  | S754_zero _ => Some 0%Q
  | S754_finite s m e =>
      Some (match e with
            | Zneg p => Qmake (cond_Zopp s (Zpos m)) (2 ^ p)%positive
            | _ => inject_Z (cond_Zopp s (Zpos m * 2 ^ e))
            end)
  | S754_infinity _ | S754_nan => None
  end.

Definition to_Q (x : double) : option Q := SF2Q (Prim2SF x).

(** Rounding of a rational to the nearest integer, halves away from zero. *)
Definition Qround_half_away (q : Q) : Z :=
  if Qle_bool 0 q then Qfloor (q + (1 # 2)) else Qceiling (q - (1 # 2)).

(** [std::round]: the nearest integer as a double, halves away from zero.
    A value with a non-negative exponent is an integer already; below that
    the magnitude is under 2^53 and the rounded integer converts exactly. *)
Definition round (x : double) : double :=
  match Prim2SF x with
  | S754_finite s m (Zneg p) =>
      let n := Z.shiftr (Zpos m + Z.shiftl 1 (Zpos p - 1)) (Zpos p) in
      if s then (- of_int n)%float else of_int n
  | _ => x
  end.

(** The [min] macro of the Windows headers: [((a) < (b)) ? (a) : (b)]. *)
Definition min (a b : double) : double := if (a <? b)%float then a else b.

(** Zero or a finite non-zero value: neither an infinity nor a NaN. *)
Definition finite (x : double) : bool :=
  match Prim2SF x with
  | S754_zero _ | S754_finite _ _ _ => true
  | S754_infinity _ | S754_nan => false
  end.

(** Not negative: a NaN, or a value whose sign bit is clear. *)
Definition SFnonneg (x : spec_float) : bool :=
  match x with
  | S754_zero s | S754_infinity s | S754_finite s _ _ => negb s
  | S754_nan => true
  end.

(** The binary64 value 1. *)
Definition SFone : spec_float := S754_finite false 4503599627370496 (-52).


(** A double cut down to its integer part and capped at 255; 255 as well
    for an infinity or a NaN. *)
Definition clamp_trunc (p : double) : Z :=
  match trunc p with
  | Some z => Z.min 255 z
  | None => 255
  end.

End Double.

Import Double.

(** ** [bardrix::color] *)

Module Color.

Import String.

Definition UCHAR_MAX : Z := 255.

(** Conversion of an [int] to [unsigned char]: reduction modulo 2^8. *)
Definition to_uchar (z : Z) : Z := z mod 256.

(** [static_cast<unsigned char>] of a double: the fraction is dropped.  The
    C++ standard leaves a value outside 0..255 undefined; the model wraps a
    finite one like the integer conversion and sends infinities and NaN
    to 0. *)
Definition uchar_of_double (x : double) : Z :=
  match trunc x with
  | Some z => to_uchar z
  | None => 0
  end.

(** The four channels of [c_union_.r_g_b_a]. *)
Record color : Type := mk { r : Z; g : Z; b : Z; a : Z }.

Definition uchar (z : Z) : Prop := 0 <= z < 256.

(** Every channel is an [unsigned char]. *)
Definition wf (c : color) : Prop :=
  uchar (r c) /\ uchar (g c) /\ uchar (b c) /\ uchar (a c).

(** A property of each of the four channels, given by its accessor. *)
Definition each_channel (P : (color -> Z) -> Prop) : Prop :=
  P r /\ P g /\ P b /\ P a.

(** The 256 values of a channel. *)
Definition uchars : list Z := map Z.of_nat (seq 0 256).

(** [c_union_.rgba]: the same four bytes read as one little-endian word,
    byte 0 = r, byte 3 = a. *)
Definition rgba (c : color) : Z :=
  Z.lor (r c)
    (Z.lor (Z.shiftl (g c) 8) (Z.lor (Z.shiftl (b c) 16) (Z.shiftl (a c) 24))).

(** [color::color(unsigned int rgba)] *)
Definition of_rgba (w : Z) : color :=
  mk (Z.land w 255)
     (Z.land (Z.shiftr w 8) 255)
     (Z.land (Z.shiftr w 16) 255)
     (Z.land (Z.shiftr w 24) 255).

(** [color::operator==] *)
Definition eqb (x y : color) : bool :=
  (r x =? r y) && (g x =? g y) && (b x =? b y) && (a x =? a y).

(** *** Saturating addition and subtraction *)

Definition add_channel (x y : Z) : Z :=
  to_uchar (if x <=? UCHAR_MAX - y then x + y else UCHAR_MAX).

Definition sub_channel (x y : Z) : Z :=
  to_uchar (if x >=? y then x - y else 0).

(** [color::operator+=(const color&)] *)
Definition add_assign (c other : color) : color :=
  mk (add_channel (r c) (r other)) (add_channel (g c) (g other))
     (add_channel (b c) (b other)) (add_channel (a c) (a other)).

(** [color::operator+(const color&)]: copy, then [+=]. *)
Definition add (c other : color) : color :=
  let result := c in add_assign result other.

(** [color::operator-=(const color&)] *)
Definition sub_assign (c other : color) : color :=
  mk (sub_channel (r c) (r other)) (sub_channel (g c) (g other))
     (sub_channel (b c) (b other)) (sub_channel (a c) (a other)).

(** [color::operator-(const color&)] *)
Definition sub (c other : color) : color :=
  let result := c in sub_assign result other.

(** *** Inversion *)

(** [color::operator~] *)
Definition lnot (c : color) : color := of_rgba (Z.lxor (rgba c) 0x00FFFFFF).

(** [color::inverted] *)
Definition inverted (c : color) : color := lnot c.

(** [color::invert]: [*this = ~*this]. *)
Definition invert (c : color) : color := lnot c.

(** *** Grayscale *)

(** The luma computed by [color::grayscale], before the conversion. *)
Definition luma (c : color) : double :=
  (0.299 * of_int (r c) + 0.587 * of_int (g c) + 0.114 * of_int (b c))%float.

(** [color::grayscale]: the gray level is computed once, then stored in the
    three colour channels. *)
Definition grayscale (c : color) : color :=
  let gray := uchar_of_double (round (luma c)) in
  mk gray gray gray (a c).

(** [color::grayscaled] *)
Definition grayscaled (c : color) : color :=
  let gray := c in grayscale gray.

(** *** Methods that may throw *)

Inductive exn : Type := invalid_argument (what : string).

Inductive outcome (A : Type) : Type :=
| Normal (x : A)
| Throw (e : exn).

Arguments Normal {A} x.
Arguments Throw {A} e.

(** A member function acting on [*this]: it ends normally or by a throw,
    and leaves the object in some state either way. *)
Definition method (A : Type) : Type := color -> outcome A * color.

Definition ret {A} (x : A) : method A := fun c => (Normal x, c).

Definition bind {A B} (m : method A) (k : A -> method B) : method B :=
  fun c => match m c with
           | (Normal x, c') => k x c'
           | (Throw e, c') => (Throw e, c')
           end.

Definition throw {A} (e : exn) : method A := fun c => (Throw e, c).

Definition this : method color := fun c => (Normal c, c).

Definition set_r (v : Z) : method unit := fun c => (Normal tt, mk v (g c) (b c) (a c)).
Definition set_g (v : Z) : method unit := fun c => (Normal tt, mk (r c) v (b c) (a c)).
Definition set_b (v : Z) : method unit := fun c => (Normal tt, mk (r c) (g c) v (a c)).
Definition set_a (v : Z) : method unit := fun c => (Normal tt, mk (r c) (g c) (b c) v).

Definition when (cond : bool) (m : method unit) : method unit :=
  if cond then m else ret tt.

#[local] Notation "x <- m ;; k" := (bind m (fun x => k))
  (at level 61, m at next level, right associativity).
#[local] Notation "m ;; k" := (bind m (fun _ => k))
  (at level 61, right associativity).

(** *** Multiplication by a double *)

Section Scalar.

(** [less_than_or_nearly_equal] and [nearly_equal] are declared in
    [bardrix.h], whose code is not embedded here: they are parameters. *)
Variable less_than_or_nearly_equal : double -> double -> bool.
Variable nearly_equal : double -> double -> bool.

(** One channel of [operator*=]: the conditional has type [double], its
    value is converted by the cast. *)
Definition mul_channel (x : Z) (scalar : double) : Z :=
  let p := (of_int x * scalar)%float in
  uchar_of_double (if (p <=? of_int UCHAR_MAX)%float then p else of_int UCHAR_MAX).

(** [color::operator*=]: the reset of the union is followed by the four
    channel updates in every case. *)
Definition mul_assign (c : color) (scalar : double) : color :=
  let c0 := if less_than_or_nearly_equal scalar 0%float then mk 0 0 0 0 else c in
  mk (mul_channel (r c0) scalar) (mul_channel (g c0) scalar)
     (mul_channel (b c0) scalar) (mul_channel (a c0) scalar).

(** [color::operator*(double)] *)
Definition mul (c : color) (scalar : double) : color :=
  let result := c in mul_assign result scalar.

(** [operator*(double, const color&)] *)
Definition rmul (scalar : double) (c : color) : color := mul c scalar.

(** The channel a product should have by the words of the specification:
    the exact product rounded to the nearest integer, halves away from
    zero, and capped at 255.  It is compared with [mul_channel] below. *)
Definition claimed_mul_channel (x : Z) (scalar : double) : option Z :=
  option_map (fun q => Z.min 255 (Qround_half_away (inject_Z x * q))) (to_Q scalar).

(** *** Division and remainder *)

Definition div_channel (x : Z) (scalar : double) : Z :=
  let q := (of_int x / scalar)%float in
  uchar_of_double (if (q <=? of_int UCHAR_MAX)%float then q else of_int UCHAR_MAX).

Definition rdiv_channel (scalar : double) (x : Z) : Z :=
  let q := (scalar / of_int x)%float in
  uchar_of_double (if (q <=? of_int UCHAR_MAX)%float then q else of_int UCHAR_MAX).

(** [color::operator/=] *)
Definition div_assign (scalar : double) : method unit :=
  when (nearly_equal scalar 0%float) (throw (invalid_argument "Division by zero")) ;;
  when (scalar <? 0)%float (throw (invalid_argument "Division by negative number")) ;;
  c <- this ;; set_r (div_channel (r c) scalar) ;;
  c <- this ;; set_g (div_channel (g c) scalar) ;;
  c <- this ;; set_b (div_channel (b c) scalar) ;;
  c <- this ;; set_a (div_channel (a c) scalar).

(** [color::operator/(double) const]: the work is done on a copy. *)
Definition div (c : color) (scalar : double) : outcome color :=
  match div_assign scalar c with
  | (Normal _, result) => Normal result
  | (Throw e, _) => Throw e
  end.

(** [operator/(double, const color&)] *)
Definition rdiv (scalar : double) (c : color) : outcome color :=
  if (r c =? 0) || (g c =? 0) || (b c =? 0) || (a c =? 0)
  then Throw (invalid_argument "Division by zero")
  else if (scalar <? 0)%float
  then Throw (invalid_argument "Division by negative number")
  else Normal (mk (rdiv_channel scalar (r c)) (rdiv_channel scalar (g c))
                  (rdiv_channel scalar (b c)) (rdiv_channel scalar (a c))).

(** [color::operator%=]; the scalar is an [unsigned char]. *)
Definition mod_assign (scalar : Z) : method unit :=
  when (scalar =? 0) (throw (invalid_argument "Division by zero")) ;;
  c <- this ;; set_r (to_uchar (Z.rem (r c) scalar)) ;;
  c <- this ;; set_g (to_uchar (Z.rem (g c) scalar)) ;;
  c <- this ;; set_b (to_uchar (Z.rem (b c) scalar)) ;;
  c <- this ;; set_a (to_uchar (Z.rem (a c) scalar)).

(** [color::operator%(uchar) const] *)
Definition modulo (c : color) (scalar : Z) : outcome color :=
  if scalar =? 0 then Throw (invalid_argument "Division by zero")
  else match mod_assign scalar c with
       | (Normal _, result) => Normal result
       | (Throw e, _) => Throw e
       end.

(** [operator%(uchar, const color&)] *)
Definition rmod (scalar : Z) (c : color) : outcome color :=
  if (r c =? 0) || (g c =? 0) || (b c =? 0) || (a c =? 0)
  then Throw (invalid_argument "Division by zero")
  else Normal (mk (to_uchar (Z.rem scalar (r c))) (to_uchar (Z.rem scalar (g c)))
                  (to_uchar (Z.rem scalar (b c))) (to_uchar (Z.rem scalar (a c)))).

End Scalar.

Definition is_throw {A} (o : outcome A) : bool :=
  match o with Throw _ => true | Normal _ => false end.

(** Modelled from the spec: [color::white()], declared in [color.h] (not
    embedded); the default colour of a material, opaque white. *)
Definition white : color := mk 255 255 255 255.

(** Modelled from the spec: [color::green()], declared in [color.h] (not
    embedded); the named colour (0, 255, 0), opaque. *)
Definition green : color := mk 0 255 0 255.

(** Modelled from the spec: [color::argb()], declared in [color.h] (not
    embedded); the packed value in ARGB byte order, alpha most
    significant. *)
Definition argb (c : color) : Z :=
  Z.lor (Z.shiftl (a c) 24)
    (Z.lor (Z.shiftl (r c) 16) (Z.lor (Z.shiftl (g c) 8) (b c))).

(** *** Addition and subtraction of an [unsigned char] *)

(** [color::operator+=(uchar)] *)
Definition add_scalar_assign (c : color) (scalar : Z) : color :=
  mk (add_channel (r c) scalar) (add_channel (g c) scalar)
     (add_channel (b c) scalar) (add_channel (a c) scalar).

(** [color::operator+(uchar)] *)
Definition add_scalar (c : color) (scalar : Z) : color :=
  let result := c in add_scalar_assign result scalar.

(** [operator+(uchar, const color&)] *)
Definition radd_scalar (scalar : Z) (c : color) : color := add_scalar c scalar.

(** [color::operator-=(uchar)] *)
Definition sub_scalar_assign (c : color) (scalar : Z) : color :=
  mk (sub_channel (r c) scalar) (sub_channel (g c) scalar)
     (sub_channel (b c) scalar) (sub_channel (a c) scalar).

(** [color::operator-(uchar)] *)
Definition sub_scalar (c : color) (scalar : Z) : color :=
  let result := c in sub_scalar_assign result scalar.

(** [operator-(uchar, const color&)]: the scalar minus each channel. *)
Definition rsub_scalar (scalar : Z) (c : color) : color :=
  mk (sub_channel scalar (r c)) (sub_channel scalar (g c))
     (sub_channel scalar (b c)) (sub_channel scalar (a c)).

(** *** Comparison *)

(** [color::operator!=] *)
Definition neqb (x y : color) : bool := negb (eqb x y).

(** [color::operator<], [<=], [>], [>=]: the packed words are compared. *)
Definition ltb (x y : color) : bool := rgba x <? rgba y.
Definition leb (x y : color) : bool := rgba x <=? rgba y.
Definition gtb (x y : color) : bool := rgba x >? rgba y.
Definition geb (x y : color) : bool := rgba x >=? rgba y.

(** [color::rgba(unsigned int)]: the setter overwrites the whole union. *)
Definition set_rgba (c : color) (w : Z) : color := of_rgba w.

End Color.

(** ** [bardrix::material] *)

Module Material.

(** The data members of [material], with the initialisers of [objects.h]. *)
Record material : Type := mk {
  color : Color.color;
  ambient_ : double;
  diffuse_ : double;
  specular_ : double;
  shininess_ : double
}.

(** [material() = default] *)
Definition default : material := mk Color.white 0%float 1%float 0%float 0%float.

Definition get_ambient (m : material) : double := ambient_ m.
Definition get_diffuse (m : material) : double := diffuse_ m.
Definition get_specular (m : material) : double := specular_ m.
Definition get_shininess (m : material) : double := shininess_ m.

(** Modelled from the spec: the clamp of the setters, which [objects.h]
    declares and documents and whose code is not embedded.  A value less
    than 0 is set to 0, a value greater than 1 is set to 1. *)
Definition clamp01 (x : double) : double :=
  if (x <? 0)%float then 0%float else if (1 <? x)%float then 1%float else x.

(** Modelled from the spec: [material::set_ambient], declared in
    [objects.h]; the ambient coefficient is clamped to [0, 1]. *)
Definition set_ambient (m : material) (ambient : double) : material :=
  mk (color m) (clamp01 ambient) (diffuse_ m) (specular_ m) (shininess_ m).

(** Modelled from the spec: [material::set_diffuse], declared in
    [objects.h]; clamp d to [0, 1], store diffuse = d, specular = 1 - d. *)
Definition set_diffuse (m : material) (diffuse : double) : material :=
  let d := clamp01 diffuse in
  mk (color m) (ambient_ m) d (1 - d)%float (shininess_ m).

(** Modelled from the spec: [material::set_specular], declared in
    [objects.h]; clamp s to [0, 1], store specular = s, diffuse = 1 - s. *)
Definition set_specular (m : material) (specular : double) : material :=
  let s := clamp01 specular in
  mk (color m) (ambient_ m) (1 - s)%float s (shininess_ m).

(** Modelled from the spec: [material::set_shininess], declared in
    [objects.h]; the shininess is clamped to be at least 0, with no upper
    bound. *)
Definition set_shininess (m : material) (shininess : double) : material :=
  mk (color m) (ambient_ m) (diffuse_ m) (specular_ m)
     (if (shininess <? 0)%float then 0%float else shininess).

(** Modelled from the spec: the constructor
    [material(const color&, double ambient, double diffuse, double shininess)],
    declared in [objects.h]; the coefficients go through the setters, the
    specular one is derived as 1 - diffuse. *)
Definition make (c : Color.color) (ambient diffuse shininess : double) : material :=
  set_shininess
    (set_diffuse (set_ambient (mk c 0%float 1%float 0%float 0%float) ambient) diffuse) shininess.


(** The class invariant: [get_diffuse() + get_specular() == 1.0]. *)
Definition sums_to_one (m : material) : bool :=
  (get_diffuse m + get_specular m =? 1)%float.

End Material.

(** ** Geometry, shapes, lights *)

Record point3 : Type := Point3 { px : double; py : double; pz : double }.

Record vector3 : Type := Vector3 { vx : double; vy : double; vz : double }.

(** A ray: origin and direction. *)
Record ray : Type := Ray { origin : point3; direction : vector3 }.

(** [bardrix::shape], the abstract class of [objects.h]: an object is the
    table of its virtual member functions. *)
Record shape : Type := Shape {
  get_position : point3;
  intersection : ray -> option point3;
  normal_at : point3 -> vector3;
  get_material : Material.material
}.

Record light : Type := Light {
  light_position : point3;
  light_intensity : double;
  light_color : Color.color
}.

Record camera : Type := Camera {
  camera_position : point3;
  camera_direction : vector3;
  camera_width : nat;
  camera_height : nat;
  camera_fov : double
}.

(** What the program calls and is defined in files that are not embedded
    here: the
    comparisons of [bardrix.h], the vector algebra of [point3.h], the
    reflection of [quaternion.h], [light::inverse_square_law],
    [color::blended], [camera::shoot_ray] and the C library's [pow]. *)
Class Bardrix : Type := {
  less_than_or_nearly_equal : double -> double -> bool;
  nearly_equal : double -> double -> bool;
  vector_to : point3 -> point3 -> vector3;
  normalized : vector3 -> vector3;
  dot : vector3 -> vector3 -> double;
  mirror : vector3 -> vector3 -> vector3;
  pow : double -> double -> double;
  inverse_square_law : light -> point3 -> double;
  blended : Color.color -> Color.color -> Color.color;
  shoot_ray : camera -> nat -> nat -> double -> ray
}.

(** ** The illuminator *)

Section Illuminator.

Context {lib : Bardrix}.

(** The angle between the normal and the direction to the light. *)
Definition light_angle (s : shape) (l : light) (p : point3) : double :=
  dot (normal_at s p) (normalized (vector_to p (light_position l))).

(** The specular dot product: the mirrored light direction against the
    direction from the camera to the point. *)
Definition specular_angle (s : shape) (l : light) (c : camera) (p : point3) : double :=
  dot (mirror (normalized (vector_to p (light_position l))) (normal_at s p))
      (normalized (vector_to (camera_position c) p)).

(** The Phong sum before attenuation: ambient, then diffuse, then specular. *)
Definition phong (s : shape) (l : light) (c : camera) (p : point3) : double :=
  let specular := pow (specular_angle s l c p)
                      (Material.get_shininess (get_material s)) in
  let intensity := Material.get_ambient (get_material s) in
  let intensity :=
    (intensity + Material.get_diffuse (get_material s) * light_angle s l p)%float in
  (intensity + Material.get_specular (get_material s) * specular)%float.

(** [calculate_light_intensity] *)
Definition calculate_light_intensity
  (s : shape) (l : light) (c : camera) (intersection_point : point3) : double :=
  let angle := light_angle s l intersection_point in
  if (angle <? 0)%float then 0%float
  else Double.min 1%float (phong s l c intersection_point
                     * inverse_square_law l intersection_point)%float.

(** ** The paint loop *)

(** The loop over the lights for one hit: the running intensity and the
    colour assigned at each turn. *)
Definition light_step (s : shape) (c : camera) (p : point3)
  (st : double * Color.color) (l : light) : double * Color.color :=
  let intensity := (fst st + calculate_light_intensity s l c p)%float in
  (intensity,
   Color.mul less_than_or_nearly_equal
     (blended (light_color l) (Material.color (get_material s))) intensity).

Definition light_loop (lights : list light) (s : shape) (c : camera) (p : point3)
  (color : Color.color) : Color.color :=
  snd (fold_left (light_step s c p) lights (0%float, color)).

(** The sum the loop over the lights leaves in [intensity]. *)
Definition total_intensity (lights : list light) (s : shape) (c : camera)
  (p : point3) (i0 : double) : double :=
  fold_left (fun acc l => (acc + calculate_light_intensity s l c p)%float) lights i0.

(** The colour assigned in the turn of the light [l]. *)
Definition lit_color (s : shape) (l : light) (intensity : double) : Color.color :=
  Color.mul less_than_or_nearly_equal
    (blended (light_color l) (Material.color (get_material s))) intensity.

(** One turn of the loop over the shapes. *)
Definition shape_step (lights : list light) (c : camera) (r : ray)
  (color : Color.color) (s : shape) : Color.color :=
  match intersection s r with
  | Some p => light_loop lights s c p color
  | None => color
  end.

(** The colour of one pixel: the loop over the shapes, from green. *)
Definition pixel_color (shapes : list shape) (lights : list light)
  (c : camera) (r : ray) : Color.color :=
  fold_left (shape_step lights c r) shapes Color.green.

(** [buffer[i] = v]; the vector is left alone when [i] is out of range
    (the access is undefined in C++). *)
Fixpoint store (i : nat) (v : Z) (buffer : list Z) : list Z :=
  match buffer, i with
  | [], _ => []
  | _ :: t, O => v :: t
  | h :: t, S j => h :: store j v t
  end.

(** The body of the inner loop, for the pixel [(x, y)]: the optional ray of
    [shoot_ray] is dereferenced unchecked, the class gives the ray itself. *)
Definition paint_pixel (shapes : list shape) (lights : list light) (c : camera)
  (width : nat) (y : nat) (buffer : list Z) (x : nat) : list Z :=
  let r := shoot_ray c x y 10%float in
  store (y * width + x) (Color.argb (pixel_color shapes lights c r)) buffer.

(** One scan line. *)
Definition paint_row (shapes : list shape) (lights : list light) (c : camera)
  (width : nat) (buffer : list Z) (y : nat) : list Z :=
  fold_left (paint_pixel shapes lights c width y) (seq 0 width) buffer.

(** [window.on_paint]: the pixel coordinates are far below 2^31, they are
    natural numbers here. *)
Definition on_paint (shapes : list shape) (lights : list light) (c : camera)
  (width height : nat) (buffer : list Z) : list Z :=
  fold_left (paint_row shapes lights c width) (seq 0 height) buffer.

(** The paint loop as one run of writes, one per pixel in scan order. *)
Definition write {A : Type} (idx : A -> nat) (val : A -> Z)
  (buffer : list Z) (x : A) : list Z :=
  store (idx x) (val x) buffer.

Definition painted (shapes : list shape) (lights : list light) (c : camera)
  (xy : nat * nat) : Z :=
  Color.argb (pixel_color shapes lights c (shoot_ray c (fst xy) (snd xy) 10%float)).

Definition pixels (width height : nat) : list (nat * nat) :=
  flat_map (fun y => map (fun x => (x, y)) (seq 0 width)) (seq 0 height).

End Illuminator.

(** ** A reference instance of the missing library *)

Module Reference.

(** One instance of [Bardrix] and a sphere, to evaluate the program on
    concrete scenes.  None of this code is embedded from the library: each
    definition follows what the specification says of it. *)

(** Modelled from the spec: [nearly_equal] of [bardrix.h], a comparison
    with a fixed tolerance, here the machine epsilon. *)
Definition nearly_equal (a b : double) : bool :=
  (abs (a - b) <=? 0x1p-52)%float.

(** Modelled from the spec: [less_than_or_nearly_equal] of [bardrix.h],
    less than, or equal within the tolerance. *)
Definition less_than_or_nearly_equal (a b : double) : bool :=
  (a <? b)%float || nearly_equal a b.

(** Modelled from the spec: [point3::vector_to], subtraction of points
    to a vector. *)
Definition vector_to (p q : point3) : vector3 :=
  Vector3 (px q - px p)%float (py q - py p)%float (pz q - pz p)%float.

(** Modelled from the spec: [vector3::dot], the dot product. *)
Definition dot (u v : vector3) : double :=
  (vx u * vx v + vy u * vy v + vz u * vz v)%float.

(** Modelled from the spec: scalar scaling of a vector. *)
Definition scale (k : double) (v : vector3) : vector3 :=
  Vector3 (k * vx v)%float (k * vy v)%float (k * vz v)%float.

(** Modelled from the spec: [vector3::normalized], the vector scaled to
    unit length. *)
Definition normalized (v : vector3) : vector3 :=
  scale (1 / sqrt (dot v v))%float v.

(** Modelled from the spec: [quaternion::mirror], the mirror reflection
    of [v] about the normal [n], that is 2 (v.n) n - v. *)
Definition mirror (v n : vector3) : vector3 :=
  let k := (2 * dot v n)%float in
  Vector3 (k * vx n - vx v)%float (k * vy n - vy v)%float (k * vz n - vz v)%float.

(** Modelled from the spec: the power of the C library for a natural
    exponent, by repeated multiplication. *)
Fixpoint pow_nat (x : double) (n : nat) : double :=
  match n with
  | O => 1%float
  | S k => (x * pow_nat x k)%float
  end.

(** Modelled from the spec: [std::pow], which cannot be computed here in
    general.  This stand-in is exact at the exponents 0 and 1, the only
    ones the scenes below use, and at base 1, where the result is 1 for
    every exponent; it multiplies repeatedly at the other natural
    exponents and gives a NaN elsewhere, where [std::pow] returns a value.
    The theorems on the illuminator hold for every [pow]; only the
    concrete scenes evaluate this one. *)
Definition pow (x y : double) : double :=
  if (x =? 1)%float then 1%float
  else match trunc y with
       | Some n => if (of_int n =? y)%float && (0 <=? n) then pow_nat x (Z.to_nat n)
                   else nan
       | None => nan
       end.

(** Modelled from the spec: [light::inverse_square_law], the attenuation
    intensity / distance^2. *)
Definition inverse_square_law (l : light) (p : point3) : double :=
  let v := vector_to p (light_position l) in
  (light_intensity l / dot v v)%float.

(** Modelled from the spec: [color::blended], a weighted combination of
    two colours whose formula the spec leaves open; here the channel-wise
    mean. *)
Definition blended (c other : Color.color) : Color.color :=
  Color.mk ((Color.r c + Color.r other) / 2) ((Color.g c + Color.g other) / 2)
           ((Color.b c + Color.b other) / 2) ((Color.a c + Color.a other) / 2).

(** Modelled from the spec: [camera::shoot_ray], a black box producing one
    ray per pixel; here a pinhole camera looking down the z axis. *)
Definition shoot_ray (c : camera) (x y : nat) (distance : double) : ray :=
  let dx := (of_int (Z.of_nat x) - of_int (Z.of_nat (camera_width c)) / 2)%float in
  let dy := (of_int (Z.of_nat y) - of_int (Z.of_nat (camera_height c)) / 2)%float in
  Ray (camera_position c) (normalized (Vector3 dx dy distance)).

#[export] Instance library : Bardrix := {
  less_than_or_nearly_equal := less_than_or_nearly_equal;
  nearly_equal := nearly_equal;
  vector_to := vector_to;
  normalized := normalized;
  dot := dot;
  mirror := mirror;
  pow := pow;
  inverse_square_law := inverse_square_law;
  blended := blended;
  shoot_ray := shoot_ray
}.

(** Modelled from the spec: the point of a ray at the parameter [t]. *)
Definition along (r : ray) (t : double) : point3 :=
  Point3 (px (origin r) + t * vx (direction r))%float
         (py (origin r) + t * vy (direction r))%float
         (pz (origin r) + t * vz (direction r))%float.

(** Modelled from the spec: the intersection of a sphere ([sphere.h], not
    embedded): the roots of |O + tD - C|^2 = R^2 for a unit direction D;
    nothing when the discriminant is negative, else the smaller root when
    it is not negative, else the larger one when it is not negative. *)
Definition sphere_intersection (radius : double) (center : point3) (r : ray)
  : option point3 :=
  let oc := vector_to center (origin r) in
  let b := (2 * dot oc (direction r))%float in
  let c := (dot oc oc - radius * radius)%float in
  let disc := (b * b - 4 * c)%float in
  if (disc <? 0)%float then None
  else
    let t1 := ((- b - sqrt disc) / 2)%float in
    let t2 := ((- b + sqrt disc) / 2)%float in
    if (0 <=? t1)%float then Some (along r t1)
    else if (0 <=? t2)%float then Some (along r t2)
    else None.

(** Modelled from the spec: a sphere as a shape; its normal at a point is
    (point - center) normalized. *)
Definition sphere (radius : double) (center : point3) (m : Material.material)
  : shape :=
  Shape center (sphere_intersection radius center)
        (fun p => normalized (vector_to center p)) m.

(** The ray parameter of a point on a ray with unit direction. *)
Definition ray_parameter (r : ray) (p : point3) : double :=
  dot (vector_to (origin r) p) (direction r).

(** A small scene: two unit spheres on the z axis, the red one in front of
    the blue one, one white light and the camera at the origin. *)
Definition red : Color.color := Color.mk 255 0 0 255.
Definition blue : Color.color := Color.mk 0 0 255 255.

Definition matte (c : Color.color) : Material.material :=
  Material.make c 0%float 1%float 0%float.

Definition near_sphere : shape :=
  sphere 1%float (Point3 0%float 0%float 3%float) (matte red).
Definition far_sphere : shape :=
  sphere 1%float (Point3 0%float 0%float 6%float) (matte blue).

Definition lamp : light :=
  Light (Point3 0%float 0%float 0%float) 1%float Color.white.

Definition eye : camera :=
  Camera (Point3 0%float 0%float 0%float) (Vector3 0%float 0%float 1%float)
         2%nat 2%nat 60%float.

Definition axis_ray : ray :=
  Ray (Point3 0%float 0%float 0%float) (Vector3 0%float 0%float 1%float).

(** A plane through the origin with normal [(0, 0, 1)] and a purely
    specular material of shininess 1; a light and a camera right above. *)
Definition mirror_plane : shape :=
  Shape (Point3 0%float 0%float 0%float) (fun _ => None)
        (fun _ => Vector3 0%float 0%float 1%float)
        (Material.set_shininess
           (Material.set_specular Material.default 1%float) 1%float).

Definition overhead : light :=
  Light (Point3 0%float 0%float 1%float) 1%float Color.white.

(** A light behind the near sphere, and a sphere far off the axis. *)
Definition back_light : light :=
  Light (Point3 0%float 0%float 10%float) 1%float Color.white.

Definition aside_sphere : shape :=
  sphere 1%float (Point3 100%float 0%float 3%float) (matte red).

Definition overhead_eye : camera :=
  Camera (Point3 0%float 0%float 1%float) (Vector3 0%float 0%float (-1)%float)
         2%nat 2%nat 60%float.

End Reference.

(** ** Proof automation *)

(** Case analysis on every integer comparison of the goal. *)
Ltac split_order :=
  repeat match goal with
    | |- context [?x <=? ?y] => destruct (Z.leb_spec x y)
    | |- context [?x <? ?y] => destruct (Z.ltb_spec x y)
    end.


(** * Properties *)

(** ** Channels and bytes *)

Lemma to_uchar_small z : Color.uchar z -> Color.to_uchar z = z.
Proof. unfold Color.uchar, Color.to_uchar. intros. apply Z.mod_small. lia. Qed.

Lemma uchar_in z : Color.uchar z -> In z Color.uchars.
Proof.
  intros Hz. unfold Color.uchars. apply in_map_iff. exists (Z.to_nat z).
  unfold Color.uchar in Hz. split; [lia | apply in_seq; lia].
Qed.

(** A property checked on the 256 channel values holds of every channel. *)
Lemma uchar_forallb (P : Z -> bool) z :
  forallb P Color.uchars = true -> Color.uchar z -> P z = true.
Proof.
  intros Hall Hz. rewrite forallb_forall in Hall. apply Hall. now apply uchar_in.
Qed.

Lemma add_channel_min x y :
  Color.uchar x -> Color.uchar y -> Color.add_channel x y = Z.min 255 (x + y).
Proof.
  unfold Color.uchar, Color.add_channel, Color.UCHAR_MAX. intros Hx Hy.
  destruct (Z.leb_spec x (255 - y)); rewrite to_uchar_small; unfold Color.uchar; lia.
Qed.

Lemma sub_channel_max x y :
  Color.uchar x -> Color.uchar y -> Color.sub_channel x y = Z.max 0 (x - y).
Proof.
  unfold Color.uchar, Color.sub_channel. intros Hx Hy.
  destruct (Z.geb_spec x y); rewrite to_uchar_small; unfold Color.uchar; lia.
Qed.

(** C8.  For well-formed colours, every channel of [a + b] (and of
    [a += b]) is [min 255 (a.channel + b.channel)], every channel of
    [a - b] is [max 0 (a.channel - b.channel)], alpha included: both
    saturate and stay within 0..255. *)
Theorem add_sub_saturate (x y : Color.color) :
  Color.wf x -> Color.wf y ->
  Color.each_channel (fun ch =>
    ch (Color.add x y) = Z.min 255 (ch x + ch y) /\
    ch (Color.add_assign x y) = Z.min 255 (ch x + ch y) /\
    ch (Color.sub x y) = Z.max 0 (ch x - ch y) /\
    ch (Color.sub_assign x y) = Z.max 0 (ch x - ch y) /\
    0 <= ch (Color.add x y) <= 255 /\ 0 <= ch (Color.sub x y) <= 255).
Proof.
  intros (Hr & Hg & Hb & Ha) (Hr' & Hg' & Hb' & Ha').
  unfold Color.each_channel, Color.add, Color.sub, Color.add_assign, Color.sub_assign;
    cbn [Color.r Color.g Color.b Color.a].
  rewrite !add_channel_min, !sub_channel_max by assumption.
  unfold Color.uchar in *. lia.
Qed.

Lemma add_sub_saturate_witness :
  Color.add (Color.mk 200 100 0 255) (Color.mk 100 100 0 255) = Color.mk 255 200 0 255 /\
  Color.sub (Color.mk 200 100 0 255) (Color.mk 100 101 7 255) = Color.mk 100 0 0 0 /\
  Color.each_channel (fun ch =>
    ch (Color.add (Color.mk 200 100 0 255) (Color.mk 100 101 7 255))
    = Z.min 255 (ch (Color.mk 200 100 0 255) + ch (Color.mk 100 101 7 255))).
Proof.
  split; [reflexivity | split; [reflexivity|]].
  assert (Hx : Color.wf (Color.mk 200 100 0 255))
    by (unfold Color.wf, Color.uchar; simpl; lia).
  assert (Hy : Color.wf (Color.mk 100 101 7 255))
    by (unfold Color.wf, Color.uchar; simpl; lia).
  pose proof (add_sub_saturate _ _ Hx Hy) as (H1 & H2 & H3 & H4).
  unfold Color.each_channel.
  exact (conj (proj1 H1) (conj (proj1 H2) (conj (proj1 H3) (proj1 H4)))).
Defined.

(** *** The packed word *)

Lemma testbit_255 i : 0 <= i -> Z.testbit 255 i = (i <? 8).
Proof.
  intros. change 255 with (Z.ones 8).
  destruct (Z.ltb_spec i 8).
  - apply Z.ones_spec_low. lia.
  - apply Z.ones_spec_high. lia.
Qed.

Lemma testbit_rgb_mask i : 0 <= i -> Z.testbit 0x00FFFFFF i = (i <? 24).
Proof.
  intros. change 0x00FFFFFF with (Z.ones 24).
  destruct (Z.ltb_spec i 24).
  - apply Z.ones_spec_low. lia.
  - apply Z.ones_spec_high. lia.
Qed.

Lemma uchar_high_bits z i : Color.uchar z -> 8 <= i -> Z.testbit z i = false.
Proof.
  unfold Color.uchar. intros Hz Hi.
  destruct (Z.eq_dec z 0) as [->|Hnz]; [apply Z.testbit_0_l|].
  apply Z.bits_above_log2; try lia.
  apply Z.log2_lt_pow2; try lia.
  apply Z.lt_le_trans with (2 ^ 8); [lia|]. apply Z.pow_le_mono_r; lia.
Qed.

(** The bit [i] of a channel placed at offset [k] in the word. *)
Lemma testbit_placed z k i :
  Color.uchar z -> 0 <= k -> 0 <= i ->
  Z.testbit (Z.shiftl z k) i = ((k <=? i) && (i <? k + 8) && Z.testbit z (i - k)).
Proof.
  intros Hz Hk Hi. rewrite Z.shiftl_spec by lia.
  destruct (Z.leb_spec k i); cbn.
  - destruct (Z.ltb_spec i (k + 8)); cbn; [reflexivity|].
    apply uchar_high_bits; [assumption | lia].
  - apply Z.testbit_neg_r. lia.
Qed.

Lemma testbit_rgba c i :
  Color.wf c -> 0 <= i ->
  Z.testbit (Color.rgba c) i =
    if i <? 8 then Z.testbit (Color.r c) i
    else if i <? 16 then Z.testbit (Color.g c) (i - 8)
    else if i <? 24 then Z.testbit (Color.b c) (i - 16)
    else Z.testbit (Color.a c) (i - 24).
Proof.
  intros (Hr & Hg & Hb & Ha) Hi. unfold Color.rgba.
  rewrite !Z.lor_spec, !testbit_placed by (assumption || lia).
  destruct (Z.ltb_spec i 8) as [H8|H8].
  - split_order; try lia; cbn; now rewrite ?orb_false_r.
  - rewrite (uchar_high_bits (Color.r c)) by (assumption || lia).
    assert (Ha' : 32 <= i -> Z.testbit (Color.a c) (i - 24) = false)
      by (intros; apply uchar_high_bits; [assumption | lia]).
    split_order; try lia; cbn; rewrite ?orb_false_r; try reflexivity.
    symmetry. apply Ha'. lia.
Qed.

Lemma land_255_uchar z : Color.uchar (Z.land z 255).
Proof.
  change 255 with (Z.ones 8). rewrite Z.land_ones by lia.
  apply Z.mod_pos_bound. lia.
Qed.

Lemma of_rgba_wf w : Color.wf (Color.of_rgba w).
Proof. repeat split; apply land_255_uchar. Qed.

(** A byte extracted from the word, bit by bit. *)
Lemma testbit_byte w k i :
  0 <= k -> 0 <= i ->
  Z.testbit (Z.land (Z.shiftr w k) 255) i = ((i <? 8) && Z.testbit w (i + k)).
Proof.
  intros Hk Hi. rewrite Z.land_spec, testbit_255, Z.shiftr_spec by lia.
  apply andb_comm.
Qed.

(** The two views of the union agree: byte [k] of the word is channel [k]. *)
Lemma rgba_bytes c :
  Color.wf c ->
  Z.land (Color.rgba c) 255 = Color.r c /\
  Z.land (Z.shiftr (Color.rgba c) 8) 255 = Color.g c /\
  Z.land (Z.shiftr (Color.rgba c) 16) 255 = Color.b c /\
  Z.land (Z.shiftr (Color.rgba c) 24) 255 = Color.a c.
Proof.
  intros Hc. pose proof Hc as (Hr & Hg & Hb & Ha).
  repeat split.
  - apply Z.bits_inj'; intros i Hi.
    rewrite Z.land_spec, testbit_255, testbit_rgba by (assumption || lia).
    split_order; try lia; cbn; rewrite ?andb_true_r, ?andb_false_r; try reflexivity.
    all: symmetry; apply uchar_high_bits; [assumption | lia].
  - apply Z.bits_inj'; intros i Hi.
    rewrite testbit_byte, testbit_rgba by (assumption || lia).
    split_order; try lia; cbn; try (f_equal; lia).
    all: symmetry; apply uchar_high_bits; [assumption | lia].
  - apply Z.bits_inj'; intros i Hi.
    rewrite testbit_byte, testbit_rgba by (assumption || lia).
    split_order; try lia; cbn; try (f_equal; lia).
    all: symmetry; apply uchar_high_bits; [assumption | lia].
  - apply Z.bits_inj'; intros i Hi.
    rewrite testbit_byte, testbit_rgba by (assumption || lia).
    split_order; try lia; cbn; try (f_equal; lia).
    all: symmetry; apply uchar_high_bits; [assumption | lia].
Qed.

Lemma of_rgba_rgba c : Color.wf c -> Color.of_rgba (Color.rgba c) = c.
Proof.
  intros Hc. destruct (rgba_bytes c Hc) as (H0 & H1 & H2 & H3).
  unfold Color.of_rgba. rewrite H0, H1, H2, H3. now destruct c.
Qed.

Lemma lxor_255 z : Color.uchar z -> Z.lxor z 255 = 255 - z.
Proof.
  intros Hz.
  assert (Hdisj : Z.land z (Z.lxor z 255) = 0).
  { apply Z.bits_inj'; intros i Hi.
    rewrite Z.land_spec, Z.lxor_spec, testbit_255, Z.bits_0 by lia.
    destruct (Z.ltb_spec i 8).
    - now destruct (Z.testbit z i).
    - now rewrite uchar_high_bits by (assumption || lia). }
  apply Z.add_nocarry_lxor in Hdisj.
  rewrite <- Z.lxor_assoc, Z.lxor_nilpotent, Z.lxor_0_l in Hdisj. lia.
Qed.

Lemma land_lxor_distr x y z :
  Z.land (Z.lxor x y) z = Z.lxor (Z.land x z) (Z.land y z).
Proof.
  apply Z.bits_inj'; intros i _.
  rewrite Z.land_spec, !Z.lxor_spec, !Z.land_spec.
  now destruct (Z.testbit x i), (Z.testbit y i), (Z.testbit z i).
Qed.

(** The channels of an inverted colour: red, green and blue are
    complemented, alpha is kept. *)
Lemma lnot_channels c :
  Color.wf c ->
  Color.lnot c =
    Color.mk (255 - Color.r c) (255 - Color.g c) (255 - Color.b c) (Color.a c).
Proof.
  intros Hc. pose proof Hc as (Hr & Hg & Hb & Ha).
  unfold Color.lnot, Color.of_rgba.
  rewrite !Z.shiftr_lxor, !land_lxor_distr.
  destruct (rgba_bytes c Hc) as (-> & -> & -> & ->).
  change (Z.land (Z.shiftr 16777215 8) 255) with 255.
  change (Z.land (Z.shiftr 16777215 16) 255) with 255.
  change (Z.land (Z.shiftr 16777215 24) 255) with 0.
  change (Z.land 16777215 255) with 255.
  now rewrite !lxor_255, Z.lxor_0_r by assumption.
Qed.

Lemma lnot_wf c : Color.wf (Color.lnot c).
Proof. apply of_rgba_wf. Qed.

Lemma rgba_lnot c :
  Color.wf c -> Color.rgba (Color.lnot c) = Z.lxor (Color.rgba c) 0x00FFFFFF.
Proof.
  intros Hc. pose proof Hc as (Hr & Hg & Hb & Ha).
  apply Z.bits_inj'; intros i Hi.
  rewrite (testbit_rgba _ _ (lnot_wf c) Hi).
  rewrite Z.lxor_spec, testbit_rgb_mask, (testbit_rgba _ _ Hc Hi) by lia.
  rewrite (lnot_channels c Hc); cbn [Color.r Color.g Color.b Color.a].
  rewrite <- !lxor_255 by assumption.
  rewrite !Z.lxor_spec.
  split_order; try lia.
  all: rewrite ?testbit_255 by lia.
  all: split_order; try lia.
  all: rewrite ?xorb_false_r; reflexivity.
Qed.

(** C6.  The packed value of an inverted colour is the original packed
    value XOR 0x00FFFFFF, its alpha byte is the original one, and inverting
    twice gives the original colour back, alpha included. *)
Theorem invert_twice (c : Color.color) :
  Color.wf c ->
  Color.rgba (Color.inverted c) = Z.lxor (Color.rgba c) 0x00FFFFFF /\
  Color.a (Color.inverted c) = Color.a c /\
  Color.inverted (Color.inverted c) = c /\
  Color.invert (Color.invert c) = c.
Proof.
  intros Hc. pose proof Hc as (Hr & Hg & Hb & Ha).
  assert (Htwice : Color.lnot (Color.lnot c) = c).
  { rewrite (lnot_channels c Hc).
    assert (Hc' : Color.wf (Color.mk (255 - Color.r c) (255 - Color.g c)
                                     (255 - Color.b c) (Color.a c))).
    { unfold Color.wf, Color.uchar in *; cbn [Color.r Color.g Color.b Color.a]; lia. }
    rewrite (lnot_channels _ Hc'). cbn [Color.r Color.g Color.b Color.a].
    destruct c; cbn [Color.r Color.g Color.b Color.a]. f_equal; lia. }
  unfold Color.inverted, Color.invert. repeat split.
  - now apply rgba_lnot.
  - now rewrite lnot_channels.
  - exact Htwice.
  - exact Htwice.
Qed.

Lemma invert_twice_witness :
  Color.inverted (Color.mk 1 2 3 4) = Color.mk 254 253 252 4 /\
  Color.inverted (Color.inverted (Color.mk 1 2 3 4)) = Color.mk 1 2 3 4.
Proof.
  split; [reflexivity|].
  apply (invert_twice (Color.mk 1 2 3 4)).
  unfold Color.wf, Color.uchar; simpl; lia.
Defined.

(** ** Division and remainder *)

(** C2.  Division and remainder throw [invalid_argument] exactly when the
    divisor is invalid: [c /= s] and [c / s] when [s] is nearly zero or
    negative, [s / c] when a channel of [c] is zero or [s] is negative,
    [c %= k] and [c % k] when [k] is zero, [k % c] when a channel is zero;
    the compound forms leave the colour as it was when they throw. *)
Theorem division_faults (ne : double -> double -> bool) (c : Color.color)
  (s : double) (k : Z) :
  let any_zero := (Color.r c =? 0) || (Color.g c =? 0) || (Color.b c =? 0)
                  || (Color.a c =? 0) in
  Color.is_throw (fst (Color.div_assign ne s c)) = ne s 0%float || (s <? 0)%float /\
  (Color.is_throw (fst (Color.div_assign ne s c)) = true ->
   snd (Color.div_assign ne s c) = c) /\
  Color.is_throw (Color.div ne c s) = ne s 0%float || (s <? 0)%float /\
  Color.is_throw (Color.rdiv s c) = any_zero || (s <? 0)%float /\
  Color.is_throw (fst (Color.mod_assign k c)) = (k =? 0) /\
  (Color.is_throw (fst (Color.mod_assign k c)) = true ->
   snd (Color.mod_assign k c) = c) /\
  Color.is_throw (Color.modulo c k) = (k =? 0) /\
  Color.is_throw (Color.rmod k c) = any_zero.
Proof.
  unfold Color.div, Color.div_assign, Color.rdiv, Color.modulo, Color.mod_assign,
    Color.rmod, Color.when, Color.bind, Color.throw, Color.ret, Color.this,
    Color.set_r, Color.set_g, Color.set_b, Color.set_a.
  cbn [fst snd Color.r Color.g Color.b Color.a].
  destruct (ne s 0%float), (s <? 0)%float, (k =? 0),
    (Color.r c =? 0), (Color.g c =? 0), (Color.b c =? 0), (Color.a c =? 0);
    cbn [fst snd Color.is_throw orb]; repeat split; intros;
    reflexivity || discriminate.
Qed.

Lemma division_faults_witness :
  snd (Color.div_assign Reference.nearly_equal (-2)%float (Color.mk 10 20 30 40))
    = Color.mk 10 20 30 40 /\
  snd (Color.mod_assign 0 (Color.mk 10 20 30 40)) = Color.mk 10 20 30 40 /\
  Color.div Reference.nearly_equal (Color.mk 10 20 30 40) 2%float
    = Color.Normal (Color.mk 5 10 15 20).
Proof.
  pose proof (division_faults Reference.nearly_equal (Color.mk 10 20 30 40)
                (-2)%float 0) as (_ & Hdiv & _ & _ & _ & Hmod & _).
  split; [apply Hdiv; vm_compute; reflexivity|].
  split; [apply Hmod; vm_compute; reflexivity|].
  vm_compute. reflexivity.
Defined.

(** ** Grayscale *)

Lemma uchar_of_double_uchar x : Color.uchar (Color.uchar_of_double x).
Proof.
  unfold Color.uchar_of_double, Color.uchar, Color.to_uchar.
  destruct (trunc x); [apply Z.mod_pos_bound|]; lia.
Qed.

(** The gray level of each of the 256 true grays is the gray itself. *)
Lemma gray_fixed_check :
  forallb (fun v => Color.r (Color.grayscale (Color.mk v v v 0)) =? v) Color.uchars
  = true.
Proof. vm_compute. reflexivity. Qed.

(** C7.  [grayscale] stores in r, g and b one gray level, the rounded luma
    0.299 r + 0.587 g + 0.114 b of the original channels as computed in
    doubles, and keeps alpha; a true gray is left as it is; pure red, green
    and blue give 76, 150 and 29. *)
Theorem grayscale_luma (c : Color.color) (v alpha : Z) :
  Color.uchar v ->
  (let gray := Color.uchar_of_double
       (round (0.299 * of_int (Color.r c) + 0.587 * of_int (Color.g c)
               + 0.114 * of_int (Color.b c))%float) in
   Color.grayscale c = Color.mk gray gray gray (Color.a c) /\
   Color.grayscaled c = Color.mk gray gray gray (Color.a c) /\
   Color.uchar gray) /\
  Color.grayscale (Color.mk v v v alpha) = Color.mk v v v alpha /\
  Color.grayscale (Color.mk 255 0 0 alpha) = Color.mk 76 76 76 alpha /\
  Color.grayscale (Color.mk 0 255 0 alpha) = Color.mk 150 150 150 alpha /\
  Color.grayscale (Color.mk 0 0 255 alpha) = Color.mk 29 29 29 alpha.
Proof.
  intros Hv. split; [|split; [|split; [|split]]].
  - split; [reflexivity | split; [reflexivity | apply uchar_of_double_uchar]].
  - pose proof (uchar_forallb _ v gray_fixed_check Hv) as H. cbv beta in H.
    apply Z.eqb_eq in H.
    unfold Color.grayscale, Color.luma in *. cbn [Color.r Color.g Color.b Color.a] in *.
    now rewrite H.
  - vm_compute. reflexivity.
  - vm_compute. reflexivity.
  - vm_compute. reflexivity.
Qed.

Lemma grayscale_luma_witness :
  Color.grayscale (Color.mk 100 100 100 7) = Color.mk 100 100 100 7 /\
  Color.grayscale (Color.mk 255 0 0 7) = Color.mk 76 76 76 7.
Proof.
  assert (Hv : Color.uchar 100) by (unfold Color.uchar; lia).
  pose proof (grayscale_luma (Color.mk 1 2 3 4) 100 7 Hv) as (_ & Hgray & Hred & _).
  exact (conj Hgray Hred).
Defined.

(** The luma is the one the doubles give: on a tie of the exact weights
    it can fall on the other side.  Here 0.587 * 36 + 0.114 * 12 is 22.5
    exactly, and the gray level is 22. *)
Lemma grayscale_tie :
  Color.r (Color.grayscale (Color.mk 0 36 12 255)) = 22 /\
  299 * 0 + 587 * 36 + 114 * 12 = 22500.
Proof. split; vm_compute; reflexivity. Qed.

(** ** Binary64 values: digits, validity, comparison with 255 *)

Lemma pow2_pos (n : Z) : 0 <= n -> 0 < 2 ^ n.
Proof. intros. apply Z.pow_pos_nonneg; [reflexivity | assumption]. Qed.

Lemma digits2_pos_bounds (m : positive) :
  2 ^ (Zpos (digits2_pos m) - 1) <= Zpos m < 2 ^ Zpos (digits2_pos m).
Proof.
  induction m as [m IH|m IH|]; cbn [digits2_pos].
  - rewrite Pos2Z.inj_succ, Pos2Z.inj_xI.
    replace (Z.succ (Zpos (digits2_pos m)) - 1)
      with (Z.succ (Zpos (digits2_pos m) - 1)) by lia.
    rewrite !Z.pow_succ_r by lia.
    set (A := 2 ^ (Zpos (digits2_pos m) - 1)) in *.
    set (B := 2 ^ Zpos (digits2_pos m)) in *. lia.
  - rewrite Pos2Z.inj_succ. change (Zpos m~0) with (2 * Zpos m).
    replace (Z.succ (Zpos (digits2_pos m)) - 1)
      with (Z.succ (Zpos (digits2_pos m) - 1)) by lia.
    rewrite !Z.pow_succ_r by lia.
    set (A := 2 ^ (Zpos (digits2_pos m) - 1)) in *.
    set (B := 2 ^ Zpos (digits2_pos m)) in *. lia.
  - cbn. lia.
Qed.

(** What validity says of a binary64 mantissa and exponent. *)
Lemma valid_finite (s : bool) (m : positive) (e : Z) :
  valid_binary (S754_finite s m e) = true ->
  -1074 <= e <= 971 /\ Zpos m < 2 ^ 53 /\ (-1074 < e -> 2 ^ 52 <= Zpos m).
Proof.
  intros H. cbn in H.
  unfold bounded, canonical_mantissa, fexp, emin, prec, emax in H.
  apply andb_prop in H as [Hc He]. apply Z.eqb_eq in Hc. apply Z.leb_le in He.
  pose proof (digits2_pos_bounds m) as [Hlo Hhi].
  set (d := Zpos (digits2_pos m)) in *.
  assert (Hd : d <= 53) by lia.
  repeat split; try lia.
  - eapply Z.lt_le_trans; [exact Hhi|]. apply Z.pow_le_mono_r; lia.
  - intros Hn. assert (Hd53 : d = 53) by lia. rewrite Hd53 in Hlo. exact Hlo.
Qed.

Lemma shiftl_neg_div (m : Z) (p : positive) : Z.shiftl m (Zneg p) = m / 2 ^ Zpos p.
Proof.
  change (Zneg p) with (- Zpos p). rewrite Z.shiftl_opp_r.
  apply Z.shiftr_div_pow2. lia.
Qed.

(** The comparison with 255.0 decides the integer part against 255. *)
Lemma leb_255_trunc (m : positive) (e : Z) :
  valid_binary (S754_finite false m e) = true ->
  if SFleb (S754_finite false m e) (Prim2SF 255) then 0 <= Z.shiftl (Zpos m) e <= 255
  else 255 <= Z.shiftl (Zpos m) e.
Proof.
  intros Hv. apply valid_finite in Hv as (He & Hhi & Hlo).
  change (2 ^ 53) with 9007199254740992 in Hhi.
  change (2 ^ 52) with 4503599627370496 in Hlo.
  change (Prim2SF 255) with (S754_finite false 8972014882652160 (-45)).
  unfold SFleb, SFcompare.
  destruct (Z.compare_spec e (-45)) as [->|Hlt|Hgt]; cbv beta iota.
  - rewrite shiftl_neg_div. change (2 ^ 45) with 35184372088832.
    rewrite Pos.compare_cont_spec.
    destruct (Pos.compare_spec m 8972014882652160) as [->|H|H];
      cbn [Pos.switch_Eq]; cbv beta iota.
    + change (Z.pos 8972014882652160 / 35184372088832) with 255.
      split; discriminate.
    + split; [apply Z.div_pos; [apply Pos2Z.is_nonneg | reflexivity]|].
      apply Z.lt_succ_r, Z.div_lt_upper_bound; [reflexivity | exact Hhi].
    + apply Z.div_le_lower_bound; [reflexivity|].
      apply Z.lt_le_incl. exact (Pos2Z.pos_lt_pos _ _ H).
  - destruct e as [|e|e]; try lia. rewrite shiftl_neg_div.
    split; [apply Z.div_pos; [lia | apply pow2_pos; lia]|].
    apply Z.le_trans with (Zpos m / 2 ^ 46).
    + apply Z.div_le_compat_l; [lia|]. split; [apply pow2_pos; discriminate|].
      apply Z.pow_le_mono_r; lia.
    + apply Z.lt_succ_r, Z.div_lt_upper_bound; [reflexivity|].
      eapply Z.lt_trans; [exact Hhi | reflexivity].
  - assert (Hm : 4503599627370496 <= Zpos m) by (apply Hlo; lia).
    destruct e as [|e|e].
    + rewrite Z.shiftl_0_r. eapply Z.le_trans; [|exact Hm]. discriminate.
    + rewrite Z.shiftl_mul_pow2 by lia.
      apply Z.le_trans with (Zpos m * 1);
        [rewrite Z.mul_1_r; eapply Z.le_trans; [|exact Hm]; discriminate|].
      apply Z.mul_le_mono_nonneg_l; [lia|].
      apply (Z.pow_le_mono_r 2 0); lia.
    + rewrite shiftl_neg_div.
      apply Z.le_trans with (Zpos m / 2 ^ 44).
      * apply Z.div_le_lower_bound; [reflexivity|].
        eapply Z.le_trans; [|exact Hm]. discriminate.
      * apply Z.div_le_compat_l; [lia|]. split; [apply pow2_pos; discriminate|].
        apply Z.pow_le_mono_r; lia.
Qed.

(** Rounding keeps the sign it is given. *)
Lemma binary_round_aux_sign (sx : bool) (mx ex : Z) (lx : location) :
  SFnonneg (binary_round_aux prec emax sx mx ex lx) = negb sx \/
  binary_round_aux prec emax sx mx ex lx = S754_nan.
Proof.
  unfold binary_round_aux.
  destruct (shr_fexp prec emax mx ex lx) as [mrs' e'].
  destruct (shr_fexp prec emax _ e' loc_Exact) as [mrs'' e''].
  destruct (shr_m mrs'') as [|m|m]; [left; reflexivity | | right; reflexivity].
  destruct (e'' <=? emax - prec); left; reflexivity.
Qed.

(** The product of two values that are not negative is not negative. *)
Lemma SFmul_nonneg (x y : spec_float) :
  SFnonneg x = true -> SFnonneg y = true -> SFnonneg (SF64mul x y) = true.
Proof.
  unfold SF64mul, SFmul.
  destruct x as [[|]|[|]| |[|] mx ex], y as [[|]|[|]| |[|] my ey];
    cbn [SFnonneg negb xorb]; try discriminate; try reflexivity.
  intros _ _.
  match goal with
  | |- context [binary_round_aux _ _ ?sx ?m ?e ?l] =>
      destruct (binary_round_aux_sign sx m e l) as [H|H]; rewrite H; reflexivity
  end.
Qed.

Lemma of_int_uchar_check :
  forallb (fun z => SFnonneg (Prim2SF (of_int z))) Color.uchars = true.
Proof. vm_compute. reflexivity. Qed.

Lemma of_int_uchar_nonneg z : Color.uchar z -> SFnonneg (Prim2SF (of_int z)) = true.
Proof. intros Hz. exact (uchar_forallb _ z of_int_uchar_check Hz). Qed.

Lemma ltb_0_nonneg (s : double) : (0 <? s)%float = true -> SFnonneg (Prim2SF s) = true.
Proof.
  rewrite ltb_spec. change (Prim2SF 0) with (S754_zero false).
  destruct (Prim2SF s) as [[|]|[|]| |[|] m e]; cbn; congruence.
Qed.

(** ** Multiplication by a double *)

(** The comparison with [UCHAR_MAX] and the cast, in integers. *)
Lemma cast_clamp (p : double) :
  SFnonneg (Prim2SF p) = true ->
  Color.uchar_of_double
    (if (p <=? of_int Color.UCHAR_MAX)%float then p else of_int Color.UCHAR_MAX)
  = clamp_trunc p.
Proof.
  intros Hp. change (of_int Color.UCHAR_MAX) with 255%float.
  rewrite leb_spec. unfold clamp_trunc, Color.uchar_of_double, trunc.
  pose proof (Prim2SF_valid p) as Hv.
  destruct (Prim2SF p) as [[|]|[|]| |[|] m e] eqn:E; try discriminate.
  - change (SFleb (S754_zero false) (Prim2SF 255)) with true. cbv beta iota.
    rewrite E. reflexivity.
  - change (SFleb (S754_infinity false) (Prim2SF 255)) with false. reflexivity.
  - change (SFleb S754_nan (Prim2SF 255)) with false. reflexivity.
  - pose proof (leb_255_trunc m e Hv) as H.
    destruct (SFleb (S754_finite false m e) (Prim2SF 255)).
    + rewrite E. cbn [SFtrunc cond_Zopp].
      rewrite Z.min_r by apply H. unfold Color.to_uchar.
      apply Z.mod_small. destruct H as [H0 H1]. split; [assumption|].
      apply Z.le_lt_trans with 255; [assumption | reflexivity].
    + cbn [SFtrunc cond_Zopp]. rewrite Z.min_l by exact H. reflexivity.
Qed.

Lemma mul_channel_clamp (x : Z) (s : double) :
  Color.uchar x -> (0 <? s)%float = true ->
  Color.mul_channel x s = clamp_trunc (of_int x * s)%float.
Proof.
  intros Hx Hs. unfold Color.mul_channel. apply cast_clamp.
  rewrite mul_spec.
  apply SFmul_nonneg; [now apply of_int_uchar_nonneg | now apply ltb_0_nonneg].
Qed.

Lemma mul_channel_zero (s : double) :
  finite s = true -> Color.mul_channel 0 s = 0.
Proof.
  intros Hs. unfold Color.mul_channel.
  change (of_int Color.UCHAR_MAX) with 255%float.
  assert (Hp : exists sg, Prim2SF (of_int 0 * s)%float = S754_zero sg).
  { rewrite mul_spec. change (Prim2SF (of_int 0)) with (S754_zero false).
    unfold finite in Hs.
    destruct (Prim2SF s) as [sg|sg| |sg m e]; try discriminate; eexists; reflexivity. }
  destruct Hp as [sg Hp].
  rewrite leb_spec, Hp.
  change (SFleb (S754_zero sg) (Prim2SF 255)) with true. cbv beta iota.
  unfold Color.uchar_of_double, trunc. rewrite Hp. reflexivity.
Qed.

(** C1, as amended.  The three forms of the product agree.  When the
    scalar is at most zero by the tolerant comparison, and finite, the
    result has all four channels 0.  When it is not, and the scalar is
    positive, each channel is the double product cut down to its integer
    part and capped at 255 (255 as well when the product is not finite). *)
Theorem mul_truncates (lne : double -> double -> bool) (c : Color.color) (s : double) :
  Color.wf c ->
  Color.rmul lne s c = Color.mul lne c s /\
  Color.mul_assign lne c s = Color.mul lne c s /\
  (lne s 0%float = true -> finite s = true ->
   Color.mul lne c s = Color.mk 0 0 0 0) /\
  (lne s 0%float = false -> (0 <? s)%float = true ->
   Color.each_channel (fun ch =>
     ch (Color.mul lne c s) = clamp_trunc (of_int (ch c) * s)%float)).
Proof.
  intros (Hr & Hg & Hb & Ha).
  split; [reflexivity | split; [reflexivity | split]].
  - intros Hle Hfin. unfold Color.mul, Color.mul_assign. rewrite Hle.
    cbn [Color.r Color.g Color.b Color.a]. now rewrite mul_channel_zero.
  - intros Hle Hpos. unfold Color.each_channel, Color.mul, Color.mul_assign.
    rewrite Hle. cbn [Color.r Color.g Color.b Color.a].
    now rewrite !mul_channel_clamp.
Qed.

Lemma mul_truncates_witness :
  Color.mul Reference.less_than_or_nearly_equal (Color.mk 3 200 0 255) 1.5%float
    = Color.mk 4 255 0 255 /\
  Color.mul Reference.less_than_or_nearly_equal (Color.mk 3 200 0 255) (-2)%float
    = Color.mk 0 0 0 0.
Proof.
  assert (Hc : Color.wf (Color.mk 3 200 0 255))
    by (unfold Color.wf, Color.uchar; simpl; lia).
  split.
  - pose proof (mul_truncates Reference.less_than_or_nearly_equal _ 1.5%float Hc)
      as (_ & _ & _ & H).
    specialize (H eq_refl eq_refl). destruct H as (H1 & H2 & H3 & H4).
    cbv beta in H1, H2, H3, H4.
    destruct (Color.mul Reference.less_than_or_nearly_equal (Color.mk 3 200 0 255) 1.5%float)
      as [r g b a].
    cbn [Color.r Color.g Color.b Color.a] in H1, H2, H3, H4.
    rewrite H1, H2, H3, H4. vm_compute. reflexivity.
  - pose proof (mul_truncates Reference.less_than_or_nearly_equal _ (-2)%float Hc)
      as (_ & _ & H & _).
    apply H; vm_compute; reflexivity.
Defined.

(** C1, as stated, fails: 3 * 0.5 is 1.5 exactly, which rounds to 2, and
    the code gives 1. *)
Lemma mul_rounds_counterexample :
  Reference.less_than_or_nearly_equal 0.5%float 0%float = false /\
  Color.claimed_mul_channel 3 0.5%float = Some 2 /\
  Color.r (Color.mul Reference.less_than_or_nearly_equal (Color.mk 3 3 3 255) 0.5%float)
    = 1 /\
  ~ (forall (lne : double -> double -> bool) (c : Color.color) (s : double),
       Color.wf c -> lne s 0%float = false ->
       Some (Color.r (Color.mul lne c s)) = Color.claimed_mul_channel (Color.r c) s).
Proof.
  split; [vm_compute; reflexivity|].
  split; [vm_compute; reflexivity|].
  split; [vm_compute; reflexivity|].
  intros H.
  specialize (H Reference.less_than_or_nearly_equal (Color.mk 3 3 3 255) 0.5%float).
  assert (Hc : Color.wf (Color.mk 3 3 3 255))
    by (unfold Color.wf, Color.uchar; simpl; lia).
  specialize (H Hc eq_refl). vm_compute in H. discriminate H.
Qed.

(** The reset of the colour does not end [operator*=]: the products are
    still taken, and 0 times minus infinity is a NaN, which fails the
    comparison with [UCHAR_MAX]. *)
Lemma mul_neg_infinity :
  Reference.less_than_or_nearly_equal neg_infinity 0%float = true /\
  Color.mul Reference.less_than_or_nearly_equal (Color.mk 3 3 3 255) neg_infinity
    = Color.mk 255 255 255 255.
Proof. split; vm_compute; reflexivity. Qed.

(** ** Binary64 arithmetic near 1 *)

(** [SpecFloat] defines the operations by shifts with round and sticky
    bits.  The lemmas below bring them to integer arithmetic, far enough to
    compute [x + (1 - x)] for every [x] between 0 and 1. *)

(** ** Right shifts with round and sticky bits *)









(** ** Digits *)





(** ** Rounding of an integer mantissa to binary64 *)



Lemma pow2_split (a b : Z) : 0 <= a -> 0 <= b -> 2 ^ (a + b) = 2 ^ a * 2 ^ b.
Proof. intros. apply Z.pow_add_r; assumption. Qed.



(** ** Sums and differences of positive binary64 values *)






(** The values [clamp01] can return when its argument is not a NaN. *)
Lemma clamp01_cases (d : double) :
  is_nan d = false ->
  Material.clamp01 d = 0%float \/ Material.clamp01 d = 1%float \/
  (exists s, Prim2SF (Material.clamp01 d) = S754_zero s) \/
  (exists m e, Prim2SF (Material.clamp01 d) = S754_finite false m e /\ e <= -53).
Proof.
  intros Hnan. unfold is_nan in Hnan. apply negb_false_iff in Hnan.
  rewrite FloatAxioms.eqb_spec in Hnan.
  unfold Material.clamp01. rewrite !ltb_spec.
  change (Prim2SF 0) with (S754_zero false). change (Prim2SF 1) with SFone.
  pose proof (Prim2SF_valid d) as Hv.
  destruct (Prim2SF d) as [s|[|]| |[|] m e] eqn:E.
  - right; right; left. exists s.
    change (SFltb (S754_zero s) (S754_zero false)) with false.
    change (SFltb SFone (S754_zero s)) with false. cbv beta iota. exact E.
  - left. reflexivity.
  - right; left. reflexivity.
  - discriminate Hnan.
  - left. reflexivity.
  - change (SFltb (S754_finite false m e) (S754_zero false)) with false. cbv beta iota.
    destruct (SFltb SFone (S754_finite false m e)) eqn:Elt; [right; left; reflexivity|].
    apply valid_finite in Hv as (Hrange & Hhi & Hlo).
    unfold SFltb, SFone, SFcompare in Elt.
    destruct (Z.compare_spec (-52) e) as [He|He|He]; try discriminate Elt.
    + subst e. rewrite Pos.compare_cont_spec in Elt. cbn [Pos.switch_Eq] in Elt.
      destruct (Pos.compare_spec 4503599627370496 m) as [Hm|Hm|Hm]; try discriminate Elt.
      * right; left. apply Prim2SF_inj. rewrite E, <- Hm. reflexivity.
      * exfalso. apply Pos2Z.pos_lt_pos in Hm.
        apply (Z.lt_irrefl (Zpos m)). eapply Z.lt_le_trans; [exact Hm|].
        apply Hlo. reflexivity.
    + right; right; right. exists m, e. split; [exact E | lia].
Qed.


(** A value that is not a NaN is clamped into [0, 1]. *)
Lemma clamp01_in_range (d : double) :
  is_nan d = false ->
  (0 <=? Material.clamp01 d)%float = true /\ (Material.clamp01 d <=? 1)%float = true.
Proof.
  intros Hnan.
  destruct (clamp01_cases d Hnan) as [-> | [-> | [[s Hz] | (m & e & Hf & He)]]].
  - split; vm_compute; reflexivity.
  - split; vm_compute; reflexivity.
  - rewrite !leb_spec, Hz. split; reflexivity.
  - rewrite !leb_spec, Hf. change (Prim2SF 1) with SFone.
    split; [reflexivity|]. unfold SFleb, SFone, SFcompare.
    replace (e ?= -52) with Lt; [reflexivity|].
    symmetry. apply Z.compare_lt_iff. lia.
Qed.

(** ** The material invariant *)

Lemma set_ambient_keeps_sum (m : Material.material) (ambient : double) :
  Material.sums_to_one (Material.set_ambient m ambient) = Material.sums_to_one m.
Proof. reflexivity. Qed.





(** ** The illuminator *)

Section Lighting.

Context {lib : Bardrix}.

(** C5.  When the dot product of the normal at the point with the
    normalized vector from the point to the light is negative,
    [calculate_light_intensity] returns exactly 0, whatever the light, the
    camera and the material are. *)
Theorem light_behind_is_dark (s : shape) (l : light) (c : camera) (p : point3) :
  (dot (normal_at s p) (normalized (vector_to p (light_position l))) <? 0)%float = true ->
  calculate_light_intensity s l c p = 0%float.
Proof.
  intros H. unfold calculate_light_intensity, light_angle. now rewrite H.
Qed.

Lemma ltb_neg_not_above_one (v : double) :
  (v <? 0)%float = true -> (1 <? v)%float = false.
Proof.
  rewrite !ltb_spec. change (Prim2SF 0) with (S754_zero false).
  change (Prim2SF 1) with (S754_finite false 4503599627370496 (-52)).
  destruct (Prim2SF v) as [[|]|[|]| |[|] m e]; cbn; congruence.
Qed.

(** C10.  The result is capped at 1 and has no floor: when the light angle
    is not negative and the attenuated Phong sum is negative, that negative
    value is returned as it is. *)
Theorem no_lower_clamp (s : shape) (l : light) (c : camera) (p : point3) :
  let v := (phong s l c p * inverse_square_law l p)%float in
  (light_angle s l p <? 0)%float = false ->
  (v <? 0)%float = true ->
  calculate_light_intensity s l c p = v /\
  (calculate_light_intensity s l c p <? 0)%float = true.
Proof.
  intros v Hangle Hneg. unfold calculate_light_intensity.
  rewrite Hangle. fold v. unfold Double.min.
  rewrite (ltb_neg_not_above_one v Hneg). now split.
Qed.

(** The cap from above, for comparison. *)
Lemma upper_clamp (s : shape) (l : light) (c : camera) (p : point3) :
  (light_angle s l p <? 0)%float = false ->
  (1 <? phong s l c p * inverse_square_law l p)%float = true ->
  calculate_light_intensity s l c p = 1%float.
Proof.
  intros Hangle Hbig. unfold calculate_light_intensity, Double.min.
  now rewrite Hangle, Hbig.
Qed.

(** ** The loop over the lights and the loop over the shapes *)

Lemma light_loop_fold (s : shape) (c : camera) (p : point3) (d : light)
  (lights : list light) :
  forall st : double * Color.color,
  fold_left (light_step s c p) lights st =
    (total_intensity lights s c p (fst st),
     match lights with
     | [] => snd st
     | _ :: _ => lit_color s (last lights d) (total_intensity lights s c p (fst st))
     end).
Proof.
  induction lights as [|l lights IH]; intros st.
  - now destruct st.
  - cbn [fold_left]. rewrite IH. unfold total_intensity.
    cbn [fold_left light_step fst snd].
    f_equal. destruct lights as [|l' lights']; reflexivity.
Qed.

(** With at least one light, the colour a hit leaves is the last light's
    blend scaled by the sum of all the intensities; the colour the pixel
    had before is lost. *)
Lemma light_loop_last (lights : list light) (s : shape) (c : camera) (p : point3)
  (d : light) (col : Color.color) :
  lights <> [] ->
  light_loop lights s c p col =
    lit_color s (last lights d) (total_intensity lights s c p 0%float).
Proof.
  intros Hne. unfold light_loop. rewrite (light_loop_fold s c p d).
  destruct lights; [contradiction | reflexivity].
Qed.

Lemma misses_keep_color (lights : list light) (c : camera) (r : ray)
  (shapes : list shape) :
  (forall s, In s shapes -> intersection s r = None) ->
  forall col, fold_left (shape_step lights c r) shapes col = col.
Proof.
  induction shapes as [|s shapes IH]; intros Hmiss col; [reflexivity|].
  cbn [fold_left]. unfold shape_step at 2.
  rewrite (Hmiss s (or_introl eq_refl)).
  apply IH. intros s' Hs'. apply Hmiss. now right.
Qed.

(** C3, as amended.  The pixel keeps the hit of the last shape, in the
    order of the scene, that the ray intersects; with at least one light
    its colour is computed from that hit only. *)
Theorem last_hit_wins (before after : list shape) (s : shape) (lights : list light)
  (c : camera) (r : ray) (p : point3) (d : light) :
  lights <> [] ->
  intersection s r = Some p ->
  (forall s', In s' after -> intersection s' r = None) ->
  pixel_color (before ++ s :: after) lights c r =
    lit_color s (last lights d) (total_intensity lights s c p 0%float).
Proof.
  intros Hne Hhit Hmiss. unfold pixel_color.
  rewrite fold_left_app. cbn [fold_left].
  rewrite misses_keep_color by assumption.
  unfold shape_step. rewrite Hhit. now apply light_loop_last.
Qed.

Lemma miss_pixel_color (shapes : list shape) (lights : list light) (c : camera)
  (r : ray) :
  (forall s, In s shapes -> intersection s r = None) ->
  pixel_color shapes lights c r = Color.green.
Proof. intros H. unfold pixel_color. now apply misses_keep_color. Qed.

End Lighting.

(** ** The pixel buffer *)

Lemma store_length i v buffer : length (store i v buffer) = length buffer.
Proof.
  revert i; induction buffer as [|h t IH]; intros [|j]; cbn; auto.
Qed.

Lemma nth_store_same i v buffer d :
  (i < length buffer)%nat -> nth i (store i v buffer) d = v.
Proof.
  revert i; induction buffer as [|h t IH]; intros [|j] H; cbn in *; try lia; auto.
  apply IH. lia.
Qed.

Lemma nth_store_other i j v buffer d :
  i <> j -> nth j (store i v buffer) d = nth j buffer d.
Proof.
  revert i j; induction buffer as [|h t IH]; intros [|i] [|j] H; cbn; auto;
    congruence.
Qed.

Section Writes.

Variables (A : Type) (idx : A -> nat) (val : A -> Z).

Lemma fold_write_length xs : forall buffer,
  length (fold_left (write idx val) xs buffer) = length buffer.
Proof.
  induction xs as [|x xs IH]; intros buffer; cbn; [reflexivity|].
  rewrite IH. apply store_length.
Qed.

(** After a run of writes a cell holds the value of a write that hit it,
    provided all the writes to one cell carry the same value. *)
Lemma fold_write_nth xs : forall buffer x d,
  In x xs ->
  (idx x < length buffer)%nat ->
  (forall y, In y xs -> idx y = idx x -> val y = val x) ->
  nth (idx x) (fold_left (write idx val) xs buffer) d = val x.
Proof.
  induction xs as [|xl xs IH] using rev_ind; intros buffer x d Hin Hlen Hsame;
    [contradiction|].
  rewrite fold_left_app. cbn [fold_left]. unfold write at 1.
  destruct (Nat.eq_dec (idx xl) (idx x)) as [Heq|Hne].
  - rewrite Heq, nth_store_same by (now rewrite fold_write_length).
    apply Hsame; [apply in_or_app; right; now left | assumption].
  - rewrite nth_store_other by assumption.
    apply IH; try assumption.
    + apply in_app_or in Hin. destruct Hin as [Hin|[->|[]]]; [assumption | congruence].
    + intros y Hy. apply Hsame. apply in_or_app. now left.
Qed.

End Writes.

Lemma fold_left_flat_map {A B C : Type} (f : A -> C -> A) (g : B -> list C)
  (l : list B) : forall a,
  fold_left f (flat_map g l) a = fold_left (fun acc y => fold_left f (g y) acc) l a.
Proof.
  induction l as [|y l IH]; intros a; cbn; [reflexivity|].
  now rewrite fold_left_app, IH.
Qed.

Section Paint.

Context {lib : Bardrix}.

Variables (shapes : list shape) (lights : list light) (c : camera).

Lemma on_paint_writes (width height : nat) (buffer : list Z) :
  on_paint shapes lights c width height buffer =
    fold_left (write (fun xy => (snd xy * width + fst xy)%nat)
                     (painted shapes lights c))
              (pixels width height) buffer.
Proof.
  unfold on_paint, pixels. rewrite fold_left_flat_map.
  revert buffer. induction (seq 0 height) as [|y ys IH]; intros buffer; [reflexivity|].
  cbn [fold_left]. rewrite <- IH. f_equal.
  unfold paint_row. generalize (seq 0 width). clear.
  intros xs; revert buffer; induction xs as [|x xs IH]; intros buffer; [reflexivity|].
  cbn [fold_left map]. now rewrite IH.
Qed.

Lemma in_pixels (width height x y : nat) :
  In (x, y) (pixels width height) <-> (x < width /\ y < height)%nat.
Proof.
  unfold pixels. rewrite in_flat_map. split.
  - intros (y' & Hy' & Hin). apply in_map_iff in Hin as (x' & [= <- <-] & Hx').
    apply in_seq in Hy', Hx'. lia.
  - intros [Hx Hy]. exists y. split; [apply in_seq; lia|].
    apply in_map_iff. exists x. split; [reflexivity | apply in_seq; lia].
Qed.

(** Every pixel of the window receives the packed colour of its own ray. *)
Lemma on_paint_pixel (width height : nat) (buffer : list Z) (x y : nat) (d : Z) :
  (x < width)%nat -> (y < height)%nat -> length buffer = (width * height)%nat ->
  nth (y * width + x) (on_paint shapes lights c width height buffer) d =
    Color.argb (pixel_color shapes lights c (shoot_ray c x y 10%float)).
Proof.
  intros Hx Hy Hlen. rewrite on_paint_writes.
  change (y * width + x)%nat
    with ((fun xy : nat * nat => (snd xy * width + fst xy)%nat) (x, y)).
  rewrite fold_write_nth; [reflexivity | now apply in_pixels | cbn; nia |].
  intros [x' y'] Hin Heq. apply in_pixels in Hin. cbn in Heq.
  assert (y' = y) by nia. assert (x' = x) by nia. now subst.
Qed.

(** C9.  A pixel whose ray meets no shape keeps the colour the loop starts
    from, green (0, 255, 0), and that is what [on_paint] writes, packed as
    ARGB, in the cell of the pixel. *)
Theorem miss_paints_green (width height : nat) (buffer : list Z) (x y : nat) (d : Z) :
  (x < width)%nat -> (y < height)%nat -> length buffer = (width * height)%nat ->
  (forall s, In s shapes -> intersection s (shoot_ray c x y 10%float) = None) ->
  pixel_color shapes lights c (shoot_ray c x y 10%float) = Color.mk 0 255 0 255 /\
  nth (y * width + x) (on_paint shapes lights c width height buffer) d = 0xFF00FF00.
Proof.
  intros Hx Hy Hlen Hmiss.
  pose proof (miss_pixel_color shapes lights c _ Hmiss) as Hgreen.
  split; [exact Hgreen|].
  rewrite on_paint_pixel by assumption. rewrite Hgreen. reflexivity.
Qed.

End Paint.

(** ** The reference scene *)

#[local] Existing Instance Reference.library.

Lemma light_behind_is_dark_witness :
  calculate_light_intensity Reference.near_sphere Reference.back_light Reference.eye
    (Point3 0%float 0%float 2%float) = 0%float.
Proof.
  apply (light_behind_is_dark (lib := Reference.library)).
  vm_compute. reflexivity.
Defined.

Lemma no_lower_clamp_witness :
  (light_angle Reference.mirror_plane Reference.overhead
     (Point3 0%float 0%float 0%float) <? 0)%float = false /\
  calculate_light_intensity Reference.mirror_plane Reference.overhead
    Reference.overhead_eye (Point3 0%float 0%float 0%float) = (-1)%float /\
  (calculate_light_intensity Reference.mirror_plane Reference.overhead
     Reference.overhead_eye (Point3 0%float 0%float 0%float) <? 0)%float = true.
Proof.
  split; [vm_compute; reflexivity|].
  assert (Hangle : (light_angle Reference.mirror_plane Reference.overhead
                      (Point3 0%float 0%float 0%float) <? 0)%float = false)
    by (vm_compute; reflexivity).
  assert (Hneg : (phong Reference.mirror_plane Reference.overhead Reference.overhead_eye
                    (Point3 0%float 0%float 0%float)
                  * inverse_square_law Reference.overhead
                      (Point3 0%float 0%float 0%float) <? 0)%float = true)
    by (vm_compute; reflexivity).
  destruct (no_lower_clamp (lib := Reference.library) Reference.mirror_plane
              Reference.overhead Reference.overhead_eye
              (Point3 0%float 0%float 0%float) Hangle Hneg) as [Hv Hlt].
  split; [rewrite Hv; vm_compute; reflexivity | exact Hlt].
Defined.

Lemma last_hit_wins_witness :
  pixel_color [Reference.near_sphere; Reference.far_sphere] [Reference.lamp]
    Reference.eye Reference.axis_ray
  = lit_color Reference.far_sphere Reference.lamp
      (total_intensity [Reference.lamp] Reference.far_sphere Reference.eye
         (Point3 0%float 0%float 5%float) 0%float).
Proof.
  apply (last_hit_wins (lib := Reference.library) [Reference.near_sphere] []
           Reference.far_sphere [Reference.lamp] Reference.eye Reference.axis_ray
           (Point3 0%float 0%float 5%float) Reference.lamp).
  - discriminate.
  - vm_compute. reflexivity.
  - intros s' [].
Defined.

(** C3, as stated, fails: the red sphere is hit at parameter 2, the blue
    one behind it at parameter 5, and the pixel has the colour computed
    from the blue one, which comes later in the scene. *)
Lemma nearest_hit_counterexample :
  intersection Reference.near_sphere Reference.axis_ray
    = Some (Point3 0%float 0%float 2%float) /\
  intersection Reference.far_sphere Reference.axis_ray
    = Some (Point3 0%float 0%float 5%float) /\
  (Reference.ray_parameter Reference.axis_ray (Point3 0%float 0%float 2%float)
   <? Reference.ray_parameter Reference.axis_ray (Point3 0%float 0%float 5%float))%float
    = true /\
  pixel_color [Reference.near_sphere; Reference.far_sphere] [Reference.lamp]
    Reference.eye Reference.axis_ray
  = light_loop [Reference.lamp] Reference.far_sphere Reference.eye
      (Point3 0%float 0%float 5%float) Color.green /\
  pixel_color [Reference.near_sphere; Reference.far_sphere] [Reference.lamp]
    Reference.eye Reference.axis_ray
  <> light_loop [Reference.lamp] Reference.near_sphere Reference.eye
       (Point3 0%float 0%float 2%float) Color.green.
Proof.
  split; [vm_compute; reflexivity|].
  split; [vm_compute; reflexivity|].
  split; [vm_compute; reflexivity|].
  split; [vm_compute; reflexivity|].
  intros H. vm_compute in H. discriminate H.
Qed.

Lemma miss_paints_green_witness :
  nth 3 (on_paint [Reference.aside_sphere] [Reference.lamp] Reference.eye 2 2
           [0; 0; 0; 0]) 0 = 0xFF00FF00.
Proof.
  apply (miss_paints_green (lib := Reference.library) [Reference.aside_sphere]
           [Reference.lamp] Reference.eye 2 2 [0; 0; 0; 0] 1 1 0).
  - lia.
  - lia.
  - reflexivity.
  - intros s [<-|[]]. vm_compute. reflexivity.
Defined.

(** * Further properties of the colour operators *)

(** ** Scalars, and how addition and subtraction compose *)

(** X1.  Adding or subtracting an [unsigned char] saturates like the colour
    forms: [c + k] and [k + c] give [min 255 (channel + k)], [c - k] gives
    [max 0 (channel - k)] and [k - c] gives [max 0 (k - channel)]. *)
Theorem scalar_add_sub_saturate (c : Color.color) (k : Z) :
  Color.wf c -> Color.uchar k ->
  Color.each_channel (fun ch =>
    ch (Color.add_scalar c k) = Z.min 255 (ch c + k) /\
    ch (Color.radd_scalar k c) = Z.min 255 (ch c + k) /\
    ch (Color.add_scalar_assign c k) = Z.min 255 (ch c + k) /\
    ch (Color.sub_scalar c k) = Z.max 0 (ch c - k) /\
    ch (Color.sub_scalar_assign c k) = Z.max 0 (ch c - k) /\
    ch (Color.rsub_scalar k c) = Z.max 0 (k - ch c)).
Proof.
  intros (Hr & Hg & Hb & Ha) Hk.
  unfold Color.each_channel, Color.radd_scalar, Color.add_scalar, Color.sub_scalar,
    Color.add_scalar_assign, Color.sub_scalar_assign, Color.rsub_scalar;
    cbn [Color.r Color.g Color.b Color.a].
  rewrite !add_channel_min, !sub_channel_max by assumption.
  unfold Color.uchar in *. lia.
Qed.

Lemma scalar_add_sub_saturate_witness :
  Color.add_scalar (Color.mk 250 100 0 255) 10 = Color.mk 255 110 10 255 /\
  Color.rsub_scalar 100 (Color.mk 250 100 0 255) = Color.mk 0 0 100 0 /\
  Color.r (Color.sub_scalar (Color.mk 250 100 0 255) 10)
    = Z.max 0 (Color.r (Color.mk 250 100 0 255) - 10).
Proof.
  split; [reflexivity | split; [reflexivity|]].
  assert (Hc : Color.wf (Color.mk 250 100 0 255))
    by (unfold Color.wf, Color.uchar; simpl; lia).
  assert (Hk : Color.uchar 10) by (unfold Color.uchar; lia).
  pose proof (scalar_add_sub_saturate _ 10 Hc Hk) as (H1 & _).
  exact (proj1 (proj2 (proj2 (proj2 H1)))).
Defined.

Lemma add_wf (x y : Color.color) : Color.wf x -> Color.wf y -> Color.wf (Color.add x y).
Proof.
  intros (Hr & Hg & Hb & Ha) (Hr' & Hg' & Hb' & Ha').
  unfold Color.wf, Color.add, Color.add_assign; cbn [Color.r Color.g Color.b Color.a].
  rewrite !add_channel_min by assumption. unfold Color.uchar in *. lia.
Qed.

Lemma sub_wf (x y : Color.color) : Color.wf x -> Color.wf y -> Color.wf (Color.sub x y).
Proof.
  intros (Hr & Hg & Hb & Ha) (Hr' & Hg' & Hb' & Ha').
  unfold Color.wf, Color.sub, Color.sub_assign; cbn [Color.r Color.g Color.b Color.a].
  rewrite !sub_channel_max by assumption. unfold Color.uchar in *. lia.
Qed.

(** X2.  Saturating addition is commutative and associative, and transparent
    black is its neutral element. *)
Theorem add_monoid (x y z : Color.color) :
  Color.wf x -> Color.wf y -> Color.wf z ->
  Color.add x y = Color.add y x /\
  Color.add (Color.add x y) z = Color.add x (Color.add y z) /\
  Color.add x (Color.mk 0 0 0 0) = x.
Proof.
  intros Hx Hy Hz.
  pose proof (add_wf x y Hx Hy) as Hxy. pose proof (add_wf y z Hy Hz) as Hyz.
  destruct Hx as (Hr & Hg & Hb & Ha), Hy as (Hr' & Hg' & Hb' & Ha'),
    Hz as (Hr'' & Hg'' & Hb'' & Ha''), Hxy as (H1 & H2 & H3 & H4),
    Hyz as (H5 & H6 & H7 & H8).
  assert (H0 : Color.uchar 0) by (unfold Color.uchar; lia).
  unfold Color.add, Color.add_assign in *; cbn [Color.r Color.g Color.b Color.a] in *.
  repeat split.
  - rewrite !add_channel_min by assumption. f_equal; lia.
  - rewrite !(add_channel_min (Color.add_channel _ _)) by assumption.
    rewrite !(add_channel_min _ (Color.add_channel _ _)) by assumption.
    rewrite !add_channel_min by assumption.
    unfold Color.uchar in *. f_equal; lia.
  - rewrite !add_channel_min by assumption.
    unfold Color.uchar in *. destruct x; cbn [Color.r Color.g Color.b Color.a] in *.
    f_equal; lia.
Qed.

Lemma add_monoid_witness :
  Color.add (Color.add (Color.mk 200 1 2 3) (Color.mk 100 1 2 3)) (Color.mk 7 7 7 7)
  = Color.add (Color.mk 200 1 2 3) (Color.add (Color.mk 100 1 2 3) (Color.mk 7 7 7 7)).
Proof.
  apply (add_monoid (Color.mk 200 1 2 3) (Color.mk 100 1 2 3) (Color.mk 7 7 7 7));
    unfold Color.wf, Color.uchar; simpl; lia.
Defined.

(** X3.  Subtraction followed by addition of the same colour gives the
    channel-wise maximum; addition followed by subtraction gives back the
    colour only where the sum did not saturate; subtracting two colours in
    turn is subtracting their saturated sum. *)
Theorem add_sub_compose (x y z : Color.color) :
  Color.wf x -> Color.wf y -> Color.wf z ->
  Color.add (Color.sub x y) y
  = Color.mk (Z.max (Color.r x) (Color.r y)) (Z.max (Color.g x) (Color.g y))
             (Z.max (Color.b x) (Color.b y)) (Z.max (Color.a x) (Color.a y)) /\
  Color.each_channel (fun ch =>
    ch (Color.sub (Color.add x y) y) = Z.min (ch x) (255 - ch y)) /\
  Color.sub (Color.sub x y) z = Color.sub x (Color.add y z) /\
  Color.sub x x = Color.mk 0 0 0 0.
Proof.
  intros Hx Hy Hz.
  pose proof (add_wf x y Hx Hy) as Hxy. pose proof (add_wf y z Hy Hz) as Hyz.
  pose proof (sub_wf x y Hx Hy) as Hsxy.
  destruct Hx as (Hr & Hg & Hb & Ha), Hy as (Hr' & Hg' & Hb' & Ha'),
    Hz as (Hr'' & Hg'' & Hb'' & Ha''), Hxy as (H1 & H2 & H3 & H4),
    Hyz as (H5 & H6 & H7 & H8), Hsxy as (H9 & H10 & H11 & H12).
  unfold Color.each_channel, Color.add, Color.add_assign,
    Color.sub, Color.sub_assign in *; cbn [Color.r Color.g Color.b Color.a] in *.
  repeat split.
  - rewrite !(add_channel_min (Color.sub_channel _ _)) by assumption.
    rewrite !sub_channel_max by assumption.
    unfold Color.uchar in *. f_equal; lia.
  - rewrite sub_channel_max, add_channel_min by assumption. unfold Color.uchar in *. lia.
  - rewrite sub_channel_max, add_channel_min by assumption. unfold Color.uchar in *. lia.
  - rewrite sub_channel_max, add_channel_min by assumption. unfold Color.uchar in *. lia.
  - rewrite sub_channel_max, add_channel_min by assumption. unfold Color.uchar in *. lia.
  - rewrite !(sub_channel_max (Color.sub_channel _ _)) by assumption.
    rewrite !(sub_channel_max _ (Color.add_channel _ _)) by assumption.
    rewrite !sub_channel_max, !add_channel_min by assumption.
    unfold Color.uchar in *. f_equal; lia.
  - rewrite !sub_channel_max by assumption. f_equal; lia.
Qed.

Lemma add_sub_compose_witness :
  Color.add (Color.sub (Color.mk 200 1 2 3) (Color.mk 100 9 2 3)) (Color.mk 100 9 2 3)
  = Color.mk 200 9 2 3.
Proof.
  assert (Hx : Color.wf (Color.mk 200 1 2 3)) by (unfold Color.wf, Color.uchar; simpl; lia).
  assert (Hy : Color.wf (Color.mk 100 9 2 3)) by (unfold Color.wf, Color.uchar; simpl; lia).
  exact (proj1 (add_sub_compose _ _ _ Hx Hy Hy)).
Defined.

(** ** The packed word: round trips and ordering *)

(** The bits of two bytes placed at different offsets never meet. *)
Lemma lor_disjoint_add (x y : Z) : Z.land x y = 0 -> Z.lor x y = x + y.
Proof.
  intros H. rewrite <- (Z.lxor_lor _ _ H). symmetry. now apply Z.add_nocarry_lxor.
Qed.

Lemma testbit_low (z k i : Z) :
  0 <= z < 2 ^ k -> 0 <= k -> k <= i -> Z.testbit z i = false.
Proof.
  intros Hz Hk Hi. destruct (Z.eq_dec z 0) as [->|Hnz]; [apply Z.testbit_0_l|].
  apply Z.bits_above_log2; [lia|].
  apply Z.lt_le_trans with k; [|assumption]. apply Z.log2_lt_pow2; lia.
Qed.

(** A value below 2^k and a value shifted by k add without carries. *)
Lemma lor_shift_add (lo hi k : Z) :
  0 <= lo < 2 ^ k -> 0 <= k -> Z.lor lo (Z.shiftl hi k) = lo + hi * 2 ^ k.
Proof.
  intros Hlo Hk. rewrite lor_disjoint_add; [now rewrite Z.shiftl_mul_pow2|].
  apply Z.bits_inj'; intros i Hi. rewrite Z.land_spec, Z.bits_0.
  destruct (Z.lt_ge_cases i k).
  - rewrite Z.shiftl_spec_low by assumption. apply andb_false_r.
  - now rewrite (testbit_low lo k i).
Qed.

(** The packed word as a sum: red + 2^8 green + 2^16 blue + 2^24 alpha. *)
Lemma rgba_sum (c : Color.color) :
  Color.wf c ->
  Color.rgba c = Color.r c + 256 * Color.g c + 65536 * Color.b c + 16777216 * Color.a c.
Proof.
  intros (Hr & Hg & Hb & Ha). unfold Color.rgba, Color.uchar in *.
  assert (E1 : Z.lor (Z.shiftl (Color.b c) 16) (Z.shiftl (Color.a c) 24)
               = Z.shiftl (Color.b c + Color.a c * 2 ^ 8) 16).
  { rewrite <- (lor_shift_add (Color.b c) (Color.a c) 8) by lia.
    rewrite Z.shiftl_lor, Z.shiftl_shiftl by lia. reflexivity. }
  assert (E2 : Z.lor (Z.shiftl (Color.g c) 8)
                 (Z.shiftl (Color.b c + Color.a c * 2 ^ 8) 16)
               = Z.shiftl (Color.g c + (Color.b c + Color.a c * 2 ^ 8) * 2 ^ 8) 8).
  { rewrite <- (lor_shift_add (Color.g c) _ 8) by lia.
    rewrite Z.shiftl_lor, Z.shiftl_shiftl by lia. reflexivity. }
  rewrite E1, E2, lor_shift_add by lia.
  change (2 ^ 8) with 256. lia.
Qed.

(** X4.  The constructor from a packed word and the accessors are inverse to
    each other: the channels of a colour survive packing, and a 32-bit word
    survives the split into channels; the packed word of a colour fits in
    32 bits. *)
Theorem rgba_round_trip (c : Color.color) (w : Z) :
  Color.wf c -> 0 <= w < 2 ^ 32 ->
  Color.of_rgba (Color.rgba c) = c /\
  Color.rgba (Color.of_rgba w) = w /\
  Color.rgba (Color.set_rgba c w) = w /\
  0 <= Color.rgba c < 2 ^ 32.
Proof.
  intros Hc Hw.
  assert (Hback : Color.rgba (Color.of_rgba w) = w).
  { rewrite (rgba_sum _ (of_rgba_wf w)). unfold Color.of_rgba.
    cbn [Color.r Color.g Color.b Color.a].
    change 255 with (Z.ones 8). rewrite !Z.land_ones, !Z.shiftr_div_pow2 by lia.
    change (2 ^ 8) with 256. change (2 ^ 16) with 65536.
    change (2 ^ 24) with 16777216. change (2 ^ 32) with 4294967296 in Hw.
    change 65536 with (256 * 256) at 2. change 16777216 with (256 * 256 * 256) at 2.
    rewrite <- !Z.div_div by lia.
    set (q1 := w / 256). set (q2 := q1 / 256). set (q3 := q2 / 256).
    pose proof (Z.div_mod w 256 ltac:(lia)) as E1. fold q1 in E1.
    pose proof (Z.div_mod q1 256 ltac:(lia)) as E2. fold q2 in E2.
    pose proof (Z.div_mod q2 256 ltac:(lia)) as E3. fold q3 in E3.
    assert (Hq3 : 0 <= q3 < 256).
    { unfold q3, q2, q1. rewrite !Z.div_div by lia. split.
      - apply Z.div_pos; lia.
      - apply Z.div_lt_upper_bound; lia. }
    rewrite (Z.mod_small q3) by exact Hq3. lia. }
  repeat split.
  - now apply of_rgba_rgba.
  - exact Hback.
  - exact Hback.
  - rewrite (rgba_sum c Hc). destruct Hc as (Hr & Hg & Hb & Ha).
    unfold Color.uchar in *. lia.
  - rewrite (rgba_sum c Hc). destruct Hc as (Hr & Hg & Hb & Ha).
    unfold Color.uchar in *. change (2 ^ 32) with 4294967296. lia.
Qed.

Lemma rgba_round_trip_witness :
  Color.of_rgba (Color.rgba (Color.mk 1 2 3 4)) = Color.mk 1 2 3 4 /\
  Color.rgba (Color.of_rgba 0x04030201) = 0x04030201.
Proof.
  assert (Hc : Color.wf (Color.mk 1 2 3 4)) by (unfold Color.wf, Color.uchar; simpl; lia).
  assert (Hw : 0 <= 0x04030201 < 2 ^ 32) by (simpl; lia).
  pose proof (rgba_round_trip _ _ Hc Hw) as (H1 & H2 & _).
  exact (conj H1 H2).
Defined.

(** X5.  The order of colours is the order of their packed words, that is, by
    alpha first, then blue, then green, then red. *)
Theorem order_is_lexicographic (x y : Color.color) :
  Color.wf x -> Color.wf y ->
  (Color.ltb x y = true <->
   Color.a x < Color.a y \/
   (Color.a x = Color.a y /\
    (Color.b x < Color.b y \/
     (Color.b x = Color.b y /\
      (Color.g x < Color.g y \/
       (Color.g x = Color.g y /\ Color.r x < Color.r y)))))) /\
  Color.gtb x y = Color.ltb y x /\
  Color.leb x y = negb (Color.ltb y x) /\
  Color.geb x y = negb (Color.ltb x y).
Proof.
  intros Hx Hy. unfold Color.ltb, Color.gtb, Color.leb, Color.geb.
  rewrite (rgba_sum x Hx), (rgba_sum y Hy).
  destruct Hx as (Hr & Hg & Hb & Ha), Hy as (Hr' & Hg' & Hb' & Ha').
  unfold Color.uchar in *.
  repeat split.
  - intros H. apply Z.ltb_lt in H. lia.
  - intros H. apply Z.ltb_lt. lia.
  - rewrite Z.gtb_ltb. reflexivity.
  - rewrite Z.leb_antisym. reflexivity.
  - rewrite Z.geb_leb, Z.leb_antisym. reflexivity.
Qed.

Lemma order_is_lexicographic_witness :
  Color.ltb (Color.mk 255 255 255 1) (Color.mk 0 0 0 2) = true.
Proof.
  assert (Hx : Color.wf (Color.mk 255 255 255 1))
    by (unfold Color.wf, Color.uchar; simpl; lia).
  assert (Hy : Color.wf (Color.mk 0 0 0 2)) by (unfold Color.wf, Color.uchar; simpl; lia).
  apply (proj1 (order_is_lexicographic _ _ Hx Hy)).
  left. simpl. lia.
Defined.

Lemma color_eqb_eq (x y : Color.color) : Color.eqb x y = true <-> x = y.
Proof.
  unfold Color.eqb. rewrite !andb_true_iff, !Z.eqb_eq. split.
  - intros [[[H1 H2] H3] H4]. destruct x, y; cbn in *. now subst.
  - intros ->. auto.
Qed.

(** X6.  [==] holds exactly of equal colours, [!=] is its negation, and the
    order is total and agrees with [==]: of [x < y], [x == y] and [x > y]
    exactly one holds, and [x <= y] with [y <= x] gives [x == y]. *)
Theorem equality_and_order (x y : Color.color) :
  Color.wf x -> Color.wf y ->
  (Color.eqb x y = true <-> x = y) /\
  Color.neqb x y = negb (Color.eqb x y) /\
  Color.eqb x y = (Color.rgba x =? Color.rgba y) /\
  Color.eqb x y = Color.leb x y && Color.leb y x /\
  (if Color.eqb x y then Color.ltb x y = false /\ Color.gtb x y = false
   else Color.ltb x y = negb (Color.gtb x y)).
Proof.
  intros Hx Hy.
  assert (Hrgba : Color.eqb x y = (Color.rgba x =? Color.rgba y)).
  { destruct (Color.eqb x y) eqn:E.
    - apply color_eqb_eq in E. subst. symmetry. apply Z.eqb_refl.
    - symmetry. apply Z.eqb_neq. intros Hw.
      assert (Hxy : x = y)
        by (rewrite <- (of_rgba_rgba x Hx), <- (of_rgba_rgba y Hy); now rewrite Hw).
      apply color_eqb_eq in Hxy. congruence. }
  split; [apply color_eqb_eq|]. split; [reflexivity|]. split; [exact Hrgba|].
  unfold Color.leb, Color.ltb, Color.gtb. rewrite Hrgba.
  split.
  - destruct (Z.eqb_spec (Color.rgba x) (Color.rgba y)) as [E|E].
    + rewrite E, Z.leb_refl. reflexivity.
    + symmetry. apply andb_false_iff.
      destruct (Z.leb_spec (Color.rgba x) (Color.rgba y)); [right|left; reflexivity].
      apply Z.leb_gt. lia.
  - destruct (Z.eqb_spec (Color.rgba x) (Color.rgba y)) as [E|E].
    + rewrite E, Z.gtb_ltb, Z.ltb_irrefl. now split.
    + rewrite Z.gtb_ltb.
      destruct (Z.ltb_spec (Color.rgba x) (Color.rgba y)),
        (Z.ltb_spec (Color.rgba y) (Color.rgba x)); cbn; try reflexivity; lia.
Qed.

Lemma equality_and_order_witness :
  Color.eqb (Color.mk 1 2 3 4) (Color.mk 1 2 3 5) = false /\
  Color.ltb (Color.mk 1 2 3 4) (Color.mk 1 2 3 5)
    = negb (Color.gtb (Color.mk 1 2 3 4) (Color.mk 1 2 3 5)).
Proof.
  split; [reflexivity|].
  assert (Hx : Color.wf (Color.mk 1 2 3 4)) by (unfold Color.wf, Color.uchar; simpl; lia).
  assert (Hy : Color.wf (Color.mk 1 2 3 5)) by (unfold Color.wf, Color.uchar; simpl; lia).
  pose proof (equality_and_order _ _ Hx Hy) as (_ & _ & _ & _ & H).
  exact H.
Defined.

(** ** Division and remainder: the values *)

Lemma SFdiv_nonneg (x y : spec_float) :
  SFnonneg x = true -> SFnonneg y = true -> SFnonneg (SF64div x y) = true.
Proof.
  unfold SF64div, SFdiv.
  destruct x as [[|]|[|]| |[|] mx ex], y as [[|]|[|]| |[|] my ey];
    cbn [SFnonneg negb xorb]; try discriminate; try reflexivity.
  intros _ _.
  destruct (SFdiv_core_binary prec emax (Zpos mx) ex (Zpos my) ey) as [[mz ez] lz].
  destruct (binary_round_aux_sign false mz ez lz) as [H|H]; rewrite H; reflexivity.
Qed.

Lemma ltb_pos_not_neg (s : double) : (0 <? s)%float = true -> (s <? 0)%float = false.
Proof.
  rewrite !ltb_spec. change (Prim2SF 0) with (S754_zero false).
  destruct (Prim2SF s) as [[|]|[|]| |[|] m e]; cbn; congruence.
Qed.

(** The capped integer part of a value that is not negative is a channel. *)
Lemma clamp_trunc_range (p : double) :
  SFnonneg (Prim2SF p) = true -> 0 <= clamp_trunc p <= 255.
Proof.
  unfold clamp_trunc, trunc.
  destruct (Prim2SF p) as [s|s| |[|] m e]; cbn [SFnonneg SFtrunc cond_Zopp negb];
    try discriminate; intros _; try lia.
  assert (0 <= Z.shiftl (Zpos m) e) by (apply Z.shiftl_nonneg; lia). lia.
Qed.

Lemma div_channel_clamp (x : Z) (s : double) :
  Color.uchar x -> (0 <? s)%float = true ->
  Color.div_channel x s = clamp_trunc (of_int x / s)%float /\
  0 <= Color.div_channel x s <= 255.
Proof.
  intros Hx Hs.
  assert (Hn : SFnonneg (Prim2SF (of_int x / s)) = true).
  { rewrite div_spec.
    apply SFdiv_nonneg; [now apply of_int_uchar_nonneg | now apply ltb_0_nonneg]. }
  unfold Color.div_channel. rewrite cast_clamp by exact Hn.
  split; [reflexivity | now apply clamp_trunc_range].
Qed.

Lemma rdiv_channel_clamp (s : double) (x : Z) :
  Color.uchar x -> (0 <? s)%float = true ->
  Color.rdiv_channel s x = clamp_trunc (s / of_int x)%float /\
  0 <= Color.rdiv_channel s x <= 255.
Proof.
  intros Hx Hs.
  assert (Hn : SFnonneg (Prim2SF (s / of_int x)) = true).
  { rewrite div_spec.
    apply SFdiv_nonneg; [now apply ltb_0_nonneg | now apply of_int_uchar_nonneg]. }
  unfold Color.rdiv_channel. rewrite cast_clamp by exact Hn.
  split; [reflexivity | now apply clamp_trunc_range].
Qed.

(** X7.  Division by a positive scalar that is not nearly zero does not throw:
    each channel of [c / s] and of [c /= s] is the double quotient cut down
    to its integer part and capped at 255, never negative; the same holds
    of [s / c] when no channel of [c] is zero. *)
Theorem division_by_positive (ne : double -> double -> bool) (c : Color.color)
  (s : double) :
  Color.wf c -> (0 <? s)%float = true ->
  (ne s 0%float = false ->
   exists q, Color.div ne c s = Color.Normal q /\
             Color.div_assign ne s c = (Color.Normal tt, q) /\
             Color.each_channel (fun ch =>
               ch q = clamp_trunc (of_int (ch c) / s)%float /\ 0 <= ch q <= 255)) /\
  ((Color.r c =? 0) || (Color.g c =? 0) || (Color.b c =? 0) || (Color.a c =? 0) = false ->
   exists q, Color.rdiv s c = Color.Normal q /\
             Color.each_channel (fun ch =>
               ch q = clamp_trunc (s / of_int (ch c))%float /\ 0 <= ch q <= 255)).
Proof.
  intros (Hr & Hg & Hb & Ha) Hs.
  pose proof (ltb_pos_not_neg s Hs) as Hneg.
  split.
  - intros Hne.
    exists (Color.mk (Color.div_channel (Color.r c) s) (Color.div_channel (Color.g c) s)
                     (Color.div_channel (Color.b c) s) (Color.div_channel (Color.a c) s)).
    unfold Color.div, Color.div_assign, Color.when, Color.bind, Color.throw, Color.ret,
      Color.this, Color.set_r, Color.set_g, Color.set_b, Color.set_a, Color.each_channel.
    rewrite Hne, Hneg. cbn [Color.r Color.g Color.b Color.a].
    repeat split; try (apply div_channel_clamp; assumption).
  - intros Hnz.
    exists (Color.mk (Color.rdiv_channel s (Color.r c)) (Color.rdiv_channel s (Color.g c))
                     (Color.rdiv_channel s (Color.b c)) (Color.rdiv_channel s (Color.a c))).
    unfold Color.rdiv, Color.each_channel. rewrite Hnz, Hneg.
    cbn [Color.r Color.g Color.b Color.a].
    repeat split; try (apply rdiv_channel_clamp; assumption).
Qed.

Lemma division_by_positive_witness :
  Color.div Reference.nearly_equal (Color.mk 10 25 0 255) 2.5%float
    = Color.Normal (Color.mk 4 10 0 102) /\
  exists q, Color.rdiv 100.5%float (Color.mk 10 25 1 255) = Color.Normal q /\
            Color.r q = clamp_trunc (100.5 / of_int 10)%float.
Proof.
  split; [vm_compute; reflexivity|].
  assert (Hc : Color.wf (Color.mk 10 25 1 255))
    by (unfold Color.wf, Color.uchar; simpl; lia).
  destruct (division_by_positive Reference.nearly_equal _ 100.5%float Hc eq_refl)
    as [_ H].
  destruct (H eq_refl) as (q & Hq & (H1 & _) & _).
  exists q. exact (conj Hq H1).
Defined.

(** ** Whole scalars *)

Lemma whole_scalar_check :
  forallb (fun x =>
    forallb (fun k =>
      (Color.mul_channel x (of_int k) =? Z.min 255 (x * k)) &&
      ((k =? 0) ||
       ((Color.div_channel x (of_int k) =? x / k) &&
        (Color.rdiv_channel (of_int x) k =? x / k) &&
        (0 <? of_int k)%float)))
      Color.uchars) Color.uchars = true.
Proof. vm_compute. reflexivity. Qed.

Lemma whole_scalar_channel (x k : Z) :
  Color.uchar x -> Color.uchar k ->
  Color.mul_channel x (of_int k) = Z.min 255 (x * k) /\
  (k <> 0 ->
   Color.div_channel x (of_int k) = x / k /\
   Color.rdiv_channel (of_int x) k = x / k /\
   (0 <? of_int k)%float = true).
Proof.
  intros Hx Hk.
  pose proof (uchar_forallb _ x whole_scalar_check Hx) as H. cbv beta in H.
  rewrite forallb_forall in H. specialize (H k (uchar_in k Hk)).
  apply andb_prop in H as [Hmul H]. apply Z.eqb_eq in Hmul.
  split; [exact Hmul|]. intros Hnz.
  apply orb_prop in H as [H|H]; [apply Z.eqb_eq in H; contradiction|].
  apply andb_prop in H as [H Hpos]. apply andb_prop in H as [Hdiv Hrdiv].
  apply Z.eqb_eq in Hdiv, Hrdiv. auto.
Qed.

(** X8.  With a whole scalar k in 1..255 the double arithmetic is exact: the
    channels of [c * k] are [min 255 (channel * k)] and those of [c / k]
    are the integer quotients [channel / k]; in particular [c * 1] and
    [c / 1] are [c].  Multiplying by 0 gives transparent black whatever
    the tolerant comparison answers. *)
Theorem whole_scalars (lne ne : double -> double -> bool) (c : Color.color) (k : Z) :
  Color.wf c -> 1 <= k <= 255 ->
  (lne (of_int k) 0%float = false ->
   Color.each_channel (fun ch => ch (Color.mul lne c (of_int k)) = Z.min 255 (ch c * k))) /\
  (ne (of_int k) 0%float = false ->
   Color.div ne c (of_int k)
   = Color.Normal (Color.mk (Color.r c / k) (Color.g c / k) (Color.b c / k)
                            (Color.a c / k))) /\
  (lne 1%float 0%float = false -> Color.mul lne c 1%float = c) /\
  (ne 1%float 0%float = false -> Color.div ne c 1%float = Color.Normal c) /\
  Color.mul lne c 0%float = Color.mk 0 0 0 0.
Proof.
  intros (Hr & Hg & Hb & Ha) Hk.
  assert (Hku : Color.uchar k) by (unfold Color.uchar; lia).
  assert (Hk0 : k <> 0) by lia.
  assert (H1u : Color.uchar 1) by (unfold Color.uchar; lia).
  assert (H0u : Color.uchar 0) by (unfold Color.uchar; lia).
  assert (Hmul : forall lne' x j, Color.uchar j ->
            lne' (of_int j) 0%float = false -> Color.wf x ->
            Color.mul lne' x (of_int j)
            = Color.mk (Z.min 255 (Color.r x * j)) (Z.min 255 (Color.g x * j))
                       (Z.min 255 (Color.b x * j)) (Z.min 255 (Color.a x * j))).
  { intros lne' x j Hj Hl (Xr & Xg & Xb & Xa). unfold Color.mul, Color.mul_assign.
    rewrite Hl.
    now rewrite (proj1 (whole_scalar_channel _ j Xr Hj)),
      (proj1 (whole_scalar_channel _ j Xg Hj)),
      (proj1 (whole_scalar_channel _ j Xb Hj)),
      (proj1 (whole_scalar_channel _ j Xa Hj)). }
  assert (Hdiv : forall x j, Color.uchar j -> j <> 0 ->
            ne (of_int j) 0%float = false -> Color.wf x ->
            Color.div ne x (of_int j)
            = Color.Normal (Color.mk (Color.r x / j) (Color.g x / j)
                                     (Color.b x / j) (Color.a x / j))).
  { intros x j Hj Hj0 Hn (Xr & Xg & Xb & Xa).
    destruct (proj2 (whole_scalar_channel _ j Xr Hj) Hj0) as (Er & _ & Hpos).
    destruct (proj2 (whole_scalar_channel _ j Xg Hj) Hj0) as (Eg & _ & _).
    destruct (proj2 (whole_scalar_channel _ j Xb Hj) Hj0) as (Eb & _ & _).
    destruct (proj2 (whole_scalar_channel _ j Xa Hj) Hj0) as (Ea & _ & _).
    unfold Color.div, Color.div_assign, Color.when, Color.bind, Color.throw, Color.ret,
      Color.this, Color.set_r, Color.set_g, Color.set_b, Color.set_a.
    rewrite Hn, (ltb_pos_not_neg _ Hpos). cbn [Color.r Color.g Color.b Color.a].
    now rewrite Er, Eg, Eb, Ea. }
  assert (Hc : Color.wf c) by exact (conj Hr (conj Hg (conj Hb Ha))).
  split; [|split; [|split; [|split]]].
  - intros Hl. rewrite (Hmul lne c k Hku Hl Hc). unfold Color.each_channel.
    cbn [Color.r Color.g Color.b Color.a]. auto.
  - intros Hn. now apply Hdiv.
  - intros Hl. change 1%float with (of_int 1). rewrite (Hmul lne c 1 H1u Hl Hc).
    unfold Color.uchar in *. destruct c; cbn [Color.r Color.g Color.b Color.a] in *.
    f_equal; lia.
  - intros Hn. change 1%float with (of_int 1). rewrite (Hdiv c 1 H1u ltac:(lia) Hn Hc).
    rewrite !Z.div_1_r. now destruct c.
  - unfold Color.mul, Color.mul_assign. change 0%float with (of_int 0).
    assert (Hz : forall x, Color.uchar x -> Color.mul_channel x (of_int 0) = 0).
    { intros x Hx. rewrite (proj1 (whole_scalar_channel x 0 Hx H0u)).
      unfold Color.uchar in Hx. lia. }
    destruct (lne (of_int 0) (of_int 0)); cbn [Color.r Color.g Color.b Color.a];
      now rewrite !Hz.
Qed.

Lemma whole_scalars_witness :
  Color.mul Reference.less_than_or_nearly_equal (Color.mk 100 2 0 255) (of_int 3)
    = Color.mk 255 6 0 255 /\
  Color.div Reference.nearly_equal (Color.mk 100 2 0 255) (of_int 3)
    = Color.Normal (Color.mk 33 0 0 85).
Proof.
  assert (Hc : Color.wf (Color.mk 100 2 0 255))
    by (unfold Color.wf, Color.uchar; simpl; lia).
  assert (Hk : 1 <= 3 <= 255) by lia.
  pose proof (whole_scalars Reference.less_than_or_nearly_equal Reference.nearly_equal
                _ 3 Hc Hk) as (Hm & Hd & _).
  split; [|apply Hd; vm_compute; reflexivity].
  destruct (Hm eq_refl) as (H1 & H2 & H3 & H4). cbv beta in H1, H2, H3, H4.
  destruct (Color.mul Reference.less_than_or_nearly_equal (Color.mk 100 2 0 255) (of_int 3))
    as [r g b a].
  cbn [Color.r Color.g Color.b Color.a] in H1, H2, H3, H4.
  rewrite H1, H2, H3, H4. reflexivity.
Defined.

(** ** Remainder *)

Lemma rem_channel (x k : Z) :
  Color.uchar x -> 0 < k -> Color.to_uchar (Z.rem x k) = x mod k /\ 0 <= x mod k < k.
Proof.
  unfold Color.uchar, Color.to_uchar. intros Hx Hk.
  rewrite Z.rem_mod_nonneg by lia.
  pose proof (Z.mod_pos_bound x k Hk). pose proof (Z.mod_le x k ltac:(lia) Hk).
  split; [apply Z.mod_small|]; lia.
Qed.

(** X9.  For a divisor k that is not 0, each channel of [c % k] and of [c %= k]
    is the remainder of the channel by k, hence below k, and taking the
    remainder again changes nothing; each channel of [k % c], when no
    channel of [c] is 0, is the remainder of k by that channel, hence below
    it. *)
Theorem remainder_values (c : Color.color) (k : Z) :
  Color.wf c -> 1 <= k <= 255 ->
  let q := Color.mk (Color.r c mod k) (Color.g c mod k) (Color.b c mod k)
                    (Color.a c mod k) in
  Color.modulo c k = Color.Normal q /\
  Color.mod_assign k c = (Color.Normal tt, q) /\
  Color.each_channel (fun ch => 0 <= ch q < k) /\
  Color.modulo q k = Color.Normal q /\
  ((Color.r c =? 0) || (Color.g c =? 0) || (Color.b c =? 0) || (Color.a c =? 0) = false ->
   Color.rmod k c
   = Color.Normal (Color.mk (k mod Color.r c) (k mod Color.g c) (k mod Color.b c)
                            (k mod Color.a c)) /\
   Color.each_channel (fun ch => 0 <= k mod ch c < ch c)).
Proof.
  intros (Hr & Hg & Hb & Ha) Hk q.
  assert (Hk0 : (k =? 0) = false) by (apply Z.eqb_neq; lia).
  assert (Hkp : 0 < k) by lia.
  assert (Hmod : forall x, Color.wf x ->
            Color.mod_assign k x
            = (Color.Normal tt, Color.mk (Color.r x mod k) (Color.g x mod k)
                                         (Color.b x mod k) (Color.a x mod k))).
  { intros x (Xr & Xg & Xb & Xa).
    unfold Color.mod_assign, Color.when, Color.bind, Color.throw, Color.ret,
      Color.this, Color.set_r, Color.set_g, Color.set_b, Color.set_a.
    rewrite Hk0. cbn [Color.r Color.g Color.b Color.a].
    now rewrite (proj1 (rem_channel _ k Xr Hkp)), (proj1 (rem_channel _ k Xg Hkp)),
      (proj1 (rem_channel _ k Xb Hkp)), (proj1 (rem_channel _ k Xa Hkp)). }
  assert (Hc : Color.wf c) by exact (conj Hr (conj Hg (conj Hb Ha))).
  assert (Hrange : Color.each_channel (fun ch => 0 <= ch q < k)).
  { unfold Color.each_channel, q. cbn [Color.r Color.g Color.b Color.a].
    pose proof (proj2 (rem_channel _ k Hr Hkp)). pose proof (proj2 (rem_channel _ k Hg Hkp)).
    pose proof (proj2 (rem_channel _ k Hb Hkp)). pose proof (proj2 (rem_channel _ k Ha Hkp)).
    auto. }
  assert (Hq : Color.wf q).
  { destruct Hrange as (Qr & Qg & Qb & Qa). unfold Color.wf, Color.uchar.
    cbv beta in Qr, Qg, Qb, Qa. lia. }
  split; [|split; [|split; [|split]]].
  - unfold Color.modulo. now rewrite Hk0, (Hmod c Hc).
  - now apply Hmod.
  - exact Hrange.
  - unfold Color.modulo. rewrite Hk0, (Hmod q Hq).
    unfold q at 1 2 3 4. cbn [Color.r Color.g Color.b Color.a].
    now rewrite !Z.mod_mod by lia.
  - intros Hnz. unfold Color.rmod. rewrite Hnz.
    apply orb_false_elim in Hnz as [Hnz Na]. apply orb_false_elim in Hnz as [Hnz Nb].
    apply orb_false_elim in Hnz as [Nr Ng].
    apply Z.eqb_neq in Nr, Ng, Nb, Na.
    assert (Hku : Color.uchar k) by (unfold Color.uchar; lia).
    unfold Color.uchar in Hr, Hg, Hb, Ha.
    split.
    + now rewrite (proj1 (rem_channel k (Color.r c) Hku ltac:(lia))),
        (proj1 (rem_channel k (Color.g c) Hku ltac:(lia))),
        (proj1 (rem_channel k (Color.b c) Hku ltac:(lia))),
        (proj1 (rem_channel k (Color.a c) Hku ltac:(lia))).
    + unfold Color.each_channel.
      repeat apply conj; apply Z.mod_pos_bound; lia.
Qed.

Lemma remainder_values_witness :
  Color.modulo (Color.mk 10 25 7 255) 7 = Color.Normal (Color.mk 3 4 0 3) /\
  Color.rmod 7 (Color.mk 10 25 7 255) = Color.Normal (Color.mk 7 7 0 7).
Proof.
  assert (Hc : Color.wf (Color.mk 10 25 7 255))
    by (unfold Color.wf, Color.uchar; simpl; lia).
  assert (Hk : 1 <= 7 <= 255) by lia.
  pose proof (remainder_values _ 7 Hc Hk) as (Hm & _ & _ & _ & Hr).
  split; [exact Hm | exact (proj1 (Hr eq_refl))].
Defined.

(** ** Grayscale and inversion, composed *)

(** X10.  Whatever the colour, [grayscale] gives a true gray with channels in
    0..255, and a second [grayscale] leaves it as it is. *)
Theorem grayscale_idempotent (c : Color.color) :
  Color.grayscale (Color.grayscale c) = Color.grayscale c /\
  Color.grayscaled (Color.grayscaled c) = Color.grayscaled c /\
  Color.r (Color.grayscale c) = Color.g (Color.grayscale c) /\
  Color.g (Color.grayscale c) = Color.b (Color.grayscale c) /\
  Color.uchar (Color.r (Color.grayscale c)).
Proof.
  assert (H : Color.grayscale (Color.grayscale c) = Color.grayscale c).
  { unfold Color.grayscale at 2 3.
    set (v := Color.uchar_of_double (round (Color.luma c))).
    assert (Hv : Color.uchar v) by apply uchar_of_double_uchar.
    pose proof (uchar_forallb _ v gray_fixed_check Hv) as E. cbv beta in E.
    apply Z.eqb_eq in E.
    unfold Color.grayscale, Color.luma in *. cbn [Color.r Color.g Color.b Color.a] in *.
    now rewrite E. }
  split; [exact H|]. split; [exact H|].
  split; [reflexivity|]. split; [reflexivity|]. apply uchar_of_double_uchar.
Qed.

(** X11.  A colour added to its inverse saturates red, green and blue at 255
    (alpha, which inversion keeps, is doubled and capped); subtracting a
    colour from the scalar 255 complements all four channels, so it agrees
    with inversion on red, green and blue only, and is its own inverse. *)
Theorem invert_complements (c : Color.color) :
  Color.wf c ->
  Color.add c (Color.inverted c)
  = Color.mk 255 255 255 (Z.min 255 (2 * Color.a c)) /\
  Color.rsub_scalar 255 c
  = Color.mk (255 - Color.r c) (255 - Color.g c) (255 - Color.b c) (255 - Color.a c) /\
  Color.r (Color.rsub_scalar 255 c) = Color.r (Color.inverted c) /\
  Color.g (Color.rsub_scalar 255 c) = Color.g (Color.inverted c) /\
  Color.b (Color.rsub_scalar 255 c) = Color.b (Color.inverted c) /\
  Color.rsub_scalar 255 (Color.rsub_scalar 255 c) = c.
Proof.
  intros Hc. pose proof (lnot_channels c Hc) as Hn.
  destruct Hc as (Hr & Hg & Hb & Ha). unfold Color.uchar in Hr, Hg, Hb, Ha.
  unfold Color.inverted. rewrite Hn.
  unfold Color.add, Color.add_assign, Color.rsub_scalar.
  destruct c as [r g b a]. cbn [Color.r Color.g Color.b Color.a] in *.
  rewrite !add_channel_min by (unfold Color.uchar; lia).
  rewrite !sub_channel_max by (unfold Color.uchar; lia).
  repeat apply conj; try (f_equal; lia); lia.
Qed.

Lemma invert_complements_witness :
  Color.add (Color.mk 1 2 3 200) (Color.inverted (Color.mk 1 2 3 200))
  = Color.mk 255 255 255 255.
Proof.
  apply (invert_complements (Color.mk 1 2 3 200)).
  unfold Color.wf, Color.uchar; simpl; lia.
Defined.

(** ** Scalars that are not finite *)

Lemma mul_channel_nan (x : Z) : Color.mul_channel x nan = 255.
Proof.
  unfold Color.mul_channel.
  assert (Hp : Prim2SF (of_int x * nan) = S754_nan).
  { rewrite mul_spec. change (Prim2SF nan) with S754_nan.
    destruct (Prim2SF (of_int x)) as [sg|sg| |sg m e]; reflexivity. }
  rewrite leb_spec, Hp.
  change (SFleb S754_nan (Prim2SF (of_int Color.UCHAR_MAX))) with false.
  reflexivity.
Qed.

Lemma mul_channel_infinity_check :
  forallb (fun x => Color.mul_channel x infinity =? 255) Color.uchars = true.
Proof. vm_compute. reflexivity. Qed.

Lemma mul_channel_infinity (x : Z) :
  Color.uchar x -> Color.mul_channel x infinity = 255.
Proof.
  intros Hx. pose proof (uchar_forallb _ x mul_channel_infinity_check Hx) as H.
  cbv beta in H. now apply Z.eqb_eq in H.
Qed.

Lemma mul_nan_white (lne : double -> double -> bool) (c : Color.color) :
  Color.mul lne c nan = Color.white.
Proof.
  unfold Color.mul, Color.mul_assign. now rewrite !mul_channel_nan.
Qed.

(** X12.  A NaN scalar makes every product NaN, the comparison with 255 fails
    and the channel is 255: [c * NaN] is (255, 255, 255, 255) for every
    colour, whatever the tolerant comparison answers and although it may
    have reset the channels first; so is [c * infinity], where a zero
    channel gives a NaN product too. *)
Theorem mul_not_finite (lne : double -> double -> bool) (c : Color.color) (s : double) :
  Color.wf c -> s = nan \/ s = infinity ->
  Color.mul lne c s = Color.mk 255 255 255 255 /\
  Color.mul_assign lne c s = Color.mk 255 255 255 255 /\
  Color.rmul lne s c = Color.mk 255 255 255 255.
Proof.
  intros (Hr & Hg & Hb & Ha) Hs.
  assert (H : Color.mul lne c s = Color.mk 255 255 255 255).
  { destruct Hs as [-> | ->]; [apply mul_nan_white|].
    assert (H0 : Color.uchar 0) by (unfold Color.uchar; lia).
    unfold Color.mul, Color.mul_assign.
    destruct (lne infinity 0%float); cbn [Color.r Color.g Color.b Color.a];
      now rewrite !mul_channel_infinity. }
  exact (conj H (conj H H)).
Qed.

Lemma mul_not_finite_witness :
  Color.mul Reference.less_than_or_nearly_equal (Color.mk 0 1 2 3) (0 / 0)%float
  = Color.mk 255 255 255 255.
Proof.
  apply (mul_not_finite Reference.less_than_or_nearly_equal (Color.mk 0 1 2 3)).
  - unfold Color.wf, Color.uchar; simpl; lia.
  - left. vm_compute. reflexivity.
Defined.

Lemma div_channel_not_finite_check :
  forallb (fun x => (Color.div_channel x infinity =? 0) &&
                    ((x =? 0) || (Color.rdiv_channel infinity x =? 255)))
          Color.uchars = true.
Proof. vm_compute. reflexivity. Qed.

Lemma div_channel_nan (x : Z) :
  Color.div_channel x nan = 255 /\ Color.rdiv_channel nan x = 255.
Proof.
  unfold Color.div_channel, Color.rdiv_channel.
  assert (Hp : Prim2SF (of_int x / nan) = S754_nan).
  { rewrite div_spec. change (Prim2SF nan) with S754_nan.
    destruct (Prim2SF (of_int x)) as [sg|sg| |sg m e]; reflexivity. }
  assert (Hq : Prim2SF (nan / of_int x) = S754_nan).
  { rewrite div_spec. change (Prim2SF nan) with S754_nan. reflexivity. }
  rewrite !leb_spec, Hp, Hq.
  change (SFleb S754_nan (Prim2SF (of_int Color.UCHAR_MAX))) with false.
  split; reflexivity.
Qed.

(** X13.  Division lets a scalar that is not finite through when the tolerant
    comparison with 0 says no: dividing by infinity gives (0, 0, 0, 0),
    dividing by a NaN gives (255, 255, 255, 255), and so does dividing
    infinity or a NaN by a colour without a zero channel; none throws. *)
Theorem div_not_finite (ne : double -> double -> bool) (c : Color.color) :
  Color.wf c ->
  (ne infinity 0%float = false ->
   Color.div ne c infinity = Color.Normal (Color.mk 0 0 0 0)) /\
  (ne nan 0%float = false ->
   Color.div ne c nan = Color.Normal (Color.mk 255 255 255 255)) /\
  ((Color.r c =? 0) || (Color.g c =? 0) || (Color.b c =? 0) || (Color.a c =? 0) = false ->
   Color.rdiv infinity c = Color.Normal (Color.mk 255 255 255 255) /\
   Color.rdiv nan c = Color.Normal (Color.mk 255 255 255 255)).
Proof.
  intros (Hr & Hg & Hb & Ha).
  assert (Hinf : forall x, Color.uchar x ->
            Color.div_channel x infinity = 0 /\
            (x <> 0 -> Color.rdiv_channel infinity x = 255)).
  { intros x Hx. pose proof (uchar_forallb _ x div_channel_not_finite_check Hx) as H.
    cbv beta in H. apply andb_prop in H as [H1 H2]. apply Z.eqb_eq in H1.
    split; [exact H1|]. intros Hx0.
    apply orb_prop in H2 as [H2|H2]; apply Z.eqb_eq in H2; [contradiction | exact H2]. }
  split; [|split].
  - intros Hne.
    unfold Color.div, Color.div_assign, Color.when, Color.bind, Color.throw, Color.ret,
      Color.this, Color.set_r, Color.set_g, Color.set_b, Color.set_a.
    rewrite Hne. change (infinity <? 0)%float with false.
    cbn [Color.r Color.g Color.b Color.a].
    now rewrite (proj1 (Hinf _ Hr)), (proj1 (Hinf _ Hg)), (proj1 (Hinf _ Hb)),
      (proj1 (Hinf _ Ha)).
  - intros Hne.
    unfold Color.div, Color.div_assign, Color.when, Color.bind, Color.throw, Color.ret,
      Color.this, Color.set_r, Color.set_g, Color.set_b, Color.set_a.
    rewrite Hne. change (nan <? 0)%float with false.
    cbn [Color.r Color.g Color.b Color.a].
    now rewrite !(proj1 (div_channel_nan _)).
  - intros Hnz. unfold Color.rdiv. rewrite Hnz.
    change (infinity <? 0)%float with false. change (nan <? 0)%float with false.
    apply orb_false_elim in Hnz as [Hnz Na]. apply orb_false_elim in Hnz as [Hnz Nb].
    apply orb_false_elim in Hnz as [Nr Ng].
    apply Z.eqb_neq in Nr, Ng, Nb, Na.
    split.
    + now rewrite (proj2 (Hinf _ Hr) Nr), (proj2 (Hinf _ Hg) Ng), (proj2 (Hinf _ Hb) Nb),
        (proj2 (Hinf _ Ha) Na).
    + now rewrite !(proj2 (div_channel_nan _)).
Qed.

Lemma div_not_finite_witness :
  Color.div Reference.nearly_equal (Color.mk 0 1 2 255) infinity
    = Color.Normal (Color.mk 0 0 0 0) /\
  Color.div Reference.nearly_equal (Color.mk 0 1 2 255) nan
    = Color.Normal (Color.mk 255 255 255 255).
Proof.
  assert (Hc : Color.wf (Color.mk 0 1 2 255))
    by (unfold Color.wf, Color.uchar; simpl; lia).
  pose proof (div_not_finite Reference.nearly_equal _ Hc) as (Hi & Hn & _).
  split; [apply Hi | apply Hn]; vm_compute; reflexivity.
Defined.

(** ** The illuminator, further *)

Lemma add_nan_r (x : double) : (x + nan)%float = nan.
Proof.
  apply Prim2SF_inj. rewrite add_spec. change (Prim2SF nan) with S754_nan.
  destruct (Prim2SF x) as [sg|sg| |sg m e]; try destruct sg; reflexivity.
Qed.

Lemma add_nan_l (x : double) : (nan + x)%float = nan.
Proof.
  apply Prim2SF_inj. rewrite add_spec. change (Prim2SF nan) with S754_nan.
  reflexivity.
Qed.

Lemma of_int_succ_check :
  forallb (fun n => PrimFloat.Leibniz.eqb (of_int n + 1)%float (of_int (n + 1)))
          Color.uchars = true.
Proof. vm_compute. reflexivity. Qed.

Lemma of_int_succ (n : Z) : Color.uchar n -> (of_int n + 1)%float = of_int (n + 1).
Proof.
  intros Hn. pose proof (uchar_forallb _ n of_int_succ_check Hn) as H.
  cbv beta in H. now apply FloatAxioms.Leibniz.eqb_spec in H.
Qed.

Section LightingMore.

Context {lib : Bardrix}.

(** X14.  The result of [calculate_light_intensity] is never above 1, whatever
    the library functions return: 1 is not less than it. *)
Theorem intensity_at_most_one (s : shape) (l : light) (c : camera) (p : point3) :
  (1 <? calculate_light_intensity s l c p)%float = false.
Proof.
  unfold calculate_light_intensity, Double.min.
  destruct (light_angle s l p <? 0)%float; [reflexivity|].
  destruct (1 <? phong s l c p * inverse_square_law l p)%float eqn:E;
    [reflexivity | exact E].
Qed.

(** X15.  Without lights a hit leaves the colour alone: every pixel is green,
    whatever the shapes and the ray. *)
Theorem no_light_is_green (shapes : list shape) (c : camera) (r : ray) :
  pixel_color shapes [] c r = Color.green.
Proof.
  unfold pixel_color. generalize Color.green as col.
  induction shapes as [|s shapes IH]; intros col; [reflexivity|].
  cbn [fold_left]. rewrite IH. unfold shape_step.
  destruct (intersection s r); reflexivity.
Qed.

Lemma total_intensity_dark (lights : list light) (s : shape) (c : camera) (p : point3) :
  (forall l, In l lights -> calculate_light_intensity s l c p = 0%float) ->
  total_intensity lights s c p 0%float = 0%float.
Proof.
  unfold total_intensity. induction lights as [|l lights IH]; intros H; [reflexivity|].
  cbn [fold_left]. rewrite (H l (or_introl eq_refl)).
  change (0 + 0)%float with 0%float. apply IH. intros l' Hl'. apply H. now right.
Qed.

(** X16.  A hit that every light is behind is painted transparent black: the
    intensities sum to 0 and the product with 0 clears the four channels,
    alpha included, so the cell receives 0. *)
Theorem shadowed_hit_is_black (lights : list light) (s : shape) (c : camera)
  (p : point3) (d : light) (col : Color.color) :
  lights <> [] ->
  (forall l, In l lights -> (light_angle s l p <? 0)%float = true) ->
  Color.wf (blended (light_color (last lights d)) (Material.color (get_material s))) ->
  total_intensity lights s c p 0%float = 0%float /\
  light_loop lights s c p col = Color.mk 0 0 0 0 /\
  Color.argb (light_loop lights s c p col) = 0.
Proof.
  intros Hne Hbehind (Hr & Hg & Hb & Ha).
  assert (Htot : total_intensity lights s c p 0%float = 0%float).
  { apply total_intensity_dark. intros l Hl.
    unfold calculate_light_intensity. now rewrite (Hbehind l Hl). }
  assert (Hloop : light_loop lights s c p col = Color.mk 0 0 0 0).
  { rewrite (light_loop_last lights s c p d col Hne), Htot.
    unfold lit_color, Color.mul, Color.mul_assign.
    assert (Hz : forall x, Color.uchar x -> Color.mul_channel x 0%float = 0).
    { intros x Hx. change 0%float with (of_int 0).
      rewrite (proj1 (whole_scalar_channel x 0 Hx ltac:(unfold Color.uchar; lia))).
      unfold Color.uchar in Hx. lia. }
    assert (H0 : Color.uchar 0) by (unfold Color.uchar; lia).
    destruct (less_than_or_nearly_equal 0%float 0%float);
      cbn [Color.r Color.g Color.b Color.a]; now rewrite !Hz. }
  split; [exact Htot|]. split; [exact Hloop|]. now rewrite Hloop.
Qed.

Lemma total_intensity_nan (lights : list light) (s : shape) (c : camera) (p : point3) :
  forall i0, total_intensity lights s c p nan = nan /\
  (forall l, In l lights -> calculate_light_intensity s l c p = nan ->
             total_intensity lights s c p i0 = nan).
Proof.
  unfold total_intensity. induction lights as [|l lights IH]; intros i0.
  - split; [reflexivity | intros l []].
  - cbn [fold_left]. split.
    + rewrite add_nan_l. apply (IH nan).
    + intros l' [<-|Hl'] Hnan.
      * rewrite Hnan, add_nan_r. apply (IH nan).
      * now apply (proj2 (IH _) l').
Qed.

(** X17.  A NaN is not filtered: when the attenuated Phong sum of one light is a
    NaN and its light angle is not negative (a NaN angle is not), the
    intensity of that light is a NaN, so is the sum over all the lights,
    and the hit is painted (255, 255, 255, 255) whatever the colours of the
    lights and of the material. *)
Theorem nan_hit_is_white (lights : list light) (l : light) (s : shape) (c : camera)
  (p : point3) (col : Color.color) :
  In l lights ->
  (light_angle s l p <? 0)%float = false ->
  (phong s l c p * inverse_square_law l p)%float = nan ->
  calculate_light_intensity s l c p = nan /\
  total_intensity lights s c p 0%float = nan /\
  light_loop lights s c p col = Color.mk 255 255 255 255.
Proof.
  intros Hin Hangle Hnan.
  assert (Hcli : calculate_light_intensity s l c p = nan).
  { unfold calculate_light_intensity, Double.min. now rewrite Hangle, Hnan. }
  assert (Htot : total_intensity lights s c p 0%float = nan)
    by exact (proj2 (total_intensity_nan lights s c p 0%float) l Hin Hcli).
  split; [exact Hcli|]. split; [exact Htot|].
  rewrite (light_loop_last lights s c p l col) by (intros ->; contradiction).
  rewrite Htot. unfold lit_color. apply mul_nan_white.
Qed.

Lemma total_intensity_saturated (lights : list light) (s : shape) (c : camera)
  (p : point3) :
  (forall l, In l lights ->
     (light_angle s l p <? 0)%float = false /\
     (1 <? phong s l c p * inverse_square_law l p)%float = true) ->
  forall k, 0 <= k -> k + Z.of_nat (length lights) <= 255 ->
  total_intensity lights s c p (of_int k) = of_int (k + Z.of_nat (length lights)).
Proof.
  unfold total_intensity. induction lights as [|l lights IH]; intros H k Hk Hlen.
  - cbn. now rewrite Z.add_0_r.
  - cbn [fold_left]. cbn [length] in Hlen |- *.
    destruct (H l (or_introl eq_refl)) as [Ha Hb].
    rewrite (upper_clamp s l c p Ha Hb).
    rewrite of_int_succ by (unfold Color.uchar; lia).
    rewrite IH; [f_equal; lia | | lia | lia].
    intros l' Hl'. apply H. now right.
Qed.

(** X18.  The cap at 1 is per light, the sum is not capped: with n lights
    (n at most 255) whose attenuated Phong sum is above 1, the intensity
    applied to the colour is n, and each channel of the hit is the last
    light's blend times n, capped at 255. *)
Theorem saturated_lights_add_up (lights : list light) (s : shape) (c : camera)
  (p : point3) (d : light) (col : Color.color) :
  let n := Z.of_nat (length lights) in
  let blend := blended (light_color (last lights d)) (Material.color (get_material s)) in
  lights <> [] -> n <= 255 ->
  (forall l, In l lights ->
     (light_angle s l p <? 0)%float = false /\
     (1 <? phong s l c p * inverse_square_law l p)%float = true) ->
  Color.wf blend ->
  less_than_or_nearly_equal (of_int n) 0%float = false ->
  total_intensity lights s c p 0%float = of_int n /\
  Color.each_channel (fun ch =>
    ch (light_loop lights s c p col) = Z.min 255 (ch blend * n)).
Proof.
  intros n blend Hne Hn Hsat (Hr & Hg & Hb & Ha) Hl.
  assert (Htot : total_intensity lights s c p 0%float = of_int n).
  { change 0%float with (of_int 0).
    rewrite (total_intensity_saturated lights s c p Hsat 0) by (fold n; lia).
    reflexivity. }
  split; [exact Htot|].
  assert (Hnu : Color.uchar n) by (unfold Color.uchar, n; lia).
  rewrite (light_loop_last lights s c p d col Hne), Htot.
  unfold lit_color, Color.mul, Color.mul_assign. fold blend. rewrite Hl.
  unfold Color.each_channel. cbn [Color.r Color.g Color.b Color.a].
  repeat apply conj; now apply whole_scalar_channel.
Qed.

End LightingMore.

(** ** The pixel buffer, further *)

Section PaintMore.

Context {lib : Bardrix}.

Variables (shapes : list shape) (lights : list light) (c : camera).

(** X19.  [on_paint] keeps the length of the buffer and overwrites each of its
    width * height cells: the result does not depend on what the buffer
    held, it is the list of the packed pixel colours in scan order, and
    painting again changes nothing. *)
Theorem on_paint_overwrites (width height : nat) (buffer other : list Z) :
  length buffer = (width * height)%nat -> length other = (width * height)%nat ->
  length (on_paint shapes lights c width height buffer) = (width * height)%nat /\
  on_paint shapes lights c width height buffer
  = on_paint shapes lights c width height other /\
  on_paint shapes lights c width height
    (on_paint shapes lights c width height buffer)
  = on_paint shapes lights c width height buffer /\
  on_paint shapes lights c width height buffer
  = map (fun i => painted shapes lights c (i mod width, i / width)%nat)
        (seq 0 (width * height)).
Proof.
  intros Hlen Hlen'.
  assert (Hl : forall b, length b = (width * height)%nat ->
            length (on_paint shapes lights c width height b) = (width * height)%nat).
  { intros b Hb. now rewrite on_paint_writes, fold_write_length. }
  assert (Hmap : forall b, length b = (width * height)%nat ->
            on_paint shapes lights c width height b
            = map (fun i => painted shapes lights c (i mod width, i / width)%nat)
                  (seq 0 (width * height))).
  { intros b Hb.
    apply (nth_ext _ _ 0 (painted shapes lights c (0 mod width, 0 / width)%nat)).
    - now rewrite (Hl b Hb), length_map, length_seq.
    - intros i Hi. rewrite (Hl b Hb) in Hi.
      assert (Hw : width <> 0%nat) by (intros ->; simpl in Hi; lia).
      pose proof (Nat.div_mod_eq i width) as Hdm.
      pose proof (Nat.mod_upper_bound i width Hw) as Hx.
      assert (Hy : (i / width < height)%nat)
        by (apply Nat.Div0.div_lt_upper_bound; lia).
      replace i with (i / width * width + i mod width)%nat at 1 by lia.
      rewrite (on_paint_pixel shapes lights c width height b _ _ 0 Hx Hy Hb).
      rewrite (map_nth (fun i => painted shapes lights c (i mod width, i / width)%nat)).
      rewrite seq_nth by lia. reflexivity. }
  split; [now apply Hl|].
  split; [now rewrite (Hmap buffer Hlen), (Hmap other Hlen')|].
  split; [|now apply Hmap].
  rewrite (Hmap _ (Hl buffer Hlen)). symmetry. now apply Hmap.
Qed.

End PaintMore.

(** ** The reference scene, further *)

Lemma shadowed_hit_is_black_witness :
  light_loop [Reference.back_light] Reference.near_sphere Reference.eye
    (Point3 0%float 0%float 2%float) Color.green = Color.mk 0 0 0 0.
Proof.
  apply (shadowed_hit_is_black (lib := Reference.library) [Reference.back_light]
           Reference.near_sphere Reference.eye (Point3 0%float 0%float 2%float)
           Reference.back_light Color.green).
  - discriminate.
  - intros l [<-|[]]. vm_compute. reflexivity.
  - vm_compute. repeat split; discriminate.
Defined.

(** A light placed at the hit point itself: the direction to it is 0/0. *)
Lemma nan_hit_is_white_witness :
  light_loop [Reference.lamp; Light (Point3 0%float 0%float 2%float) 1%float Reference.blue]
    Reference.near_sphere Reference.eye (Point3 0%float 0%float 2%float) Color.green
  = Color.mk 255 255 255 255.
Proof.
  apply (nan_hit_is_white (lib := Reference.library)
           [Reference.lamp; Light (Point3 0%float 0%float 2%float) 1%float Reference.blue]
           (Light (Point3 0%float 0%float 2%float) 1%float Reference.blue)
           Reference.near_sphere Reference.eye (Point3 0%float 0%float 2%float)
           Color.green).
  - right. left. reflexivity.
  - vm_compute. reflexivity.
  - vm_compute. reflexivity.
Defined.

Lemma saturated_lights_add_up_witness :
  total_intensity
    [Light (Point3 0%float 0%float 0%float) 8%float Color.white;
     Light (Point3 0%float 0%float 0%float) 16%float Color.white]
    Reference.near_sphere Reference.eye (Point3 0%float 0%float 2%float) 0%float
  = 2%float.
Proof.
  apply (saturated_lights_add_up (lib := Reference.library)
           [Light (Point3 0%float 0%float 0%float) 8%float Color.white;
            Light (Point3 0%float 0%float 0%float) 16%float Color.white]
           Reference.near_sphere Reference.eye (Point3 0%float 0%float 2%float)
           Reference.lamp Color.green).
  - discriminate.
  - simpl. lia.
  - intros l [<-|[<-|[]]]; split; vm_compute; reflexivity.
  - vm_compute. repeat split; discriminate.
  - vm_compute. reflexivity.
Defined.

Lemma on_paint_overwrites_witness :
  on_paint [Reference.near_sphere] [Reference.lamp] Reference.eye 2 2 [0; 0; 0; 0]
  = on_paint [Reference.near_sphere] [Reference.lamp] Reference.eye 2 2 [1; 2; 3; 4].
Proof.
  apply (on_paint_overwrites (lib := Reference.library) [Reference.near_sphere]
           [Reference.lamp] Reference.eye 2 2 [0; 0; 0; 0] [1; 2; 3; 4]);
    reflexivity.
Defined.
